(** * nq: a chainable element collection over the host document tree

    Shallow embedding of [src/nq.js].  The library is a thin layer over the
    host's DOM, so the development has three parts:

    - [JS]: the JavaScript values and string helpers the code relies on;
    - the host: a heap of element objects with the DOM primitives the code
      calls (class lists, attributes, tree insertion, listeners), following
      the DOM Standard, and an interface [Host] for what the host computes
      on its own (markup parsing, selector matching, rendering);
    - the code: [nq], [Query] and every method of [Query.prototype], written
      in a state-and-exception monad over the host heap. *)

From Stdlib Require Import Ascii String.
From stdpp Require Import base option list gmap strings pretty.

Local Open Scope string_scope.
Local Open Scope list_scope.

(** ** JavaScript values *)

Module JS.

(** The primitive values that reach the library's arguments.  Numbers are
    the safe integers (of absolute value below [2^53]), which JavaScript
    holds exactly and prints in plain decimal notation. *)
Inductive value :=
  | VUndefined
  | VNull
  | VBool (b : bool)
  | VNum (z : Z)
  | VStr (s : string).

Global Instance value_eq_dec : EqDecision value.
Proof. solve_decision. Defined.

(** [String(v)], the conversion applied to a DOMString argument. *)
Definition ToString (v : value) : string :=
  match v with
  | VUndefined => "undefined"
  | VNull => "null"
  | VBool true => "true"
  | VBool false => "false"
  | VNum z => pretty z
  | VStr s => s
  end.

(** The conversion of a [LegacyNullToEmptyString] DOMString argument
    ([innerHTML], [innerText]). *)
Definition ToStringNullEmpty (v : value) : string :=
  match v with
  | VNull => ""
  | _ => ToString v
  end.

(** Strings are sequences of bytes: the UTF-8 form of the text, in which a
    surrogate code unit without its partner, which a JavaScript string may
    hold, stands as the three bytes of its own code point (the WTF-8 form).

    White space is what [trim] strips, the [WhiteSpace] and
    [LineTerminator] code points of ECMAScript.  In bytes:
    - one byte: tab, line feed, vertical tab, form feed, carriage return,
      space;
    - two bytes: U+00A0 ([C2 A0]);
    - three bytes: U+1680 ([E1 9A 80]), U+2000 to U+200A ([E2 80 80] to
      [E2 80 8A]), U+2028, U+2029, U+202F ([E2 80 A8], [E2 80 A9],
      [E2 80 AF]), U+205F ([E2 81 9F]), U+3000 ([E3 80 80]) and U+FEFF
      ([EF BB BF]). *)
Definition ws1 (a : ascii) : bool :=
  bool_decide (nat_of_ascii a ∈ [9; 10; 11; 12; 13; 32]).

Definition ws2 (a b : ascii) : bool :=
  bool_decide (nat_of_ascii a = 194 ∧ nat_of_ascii b = 160).

Definition ws3 (a b c : ascii) : bool :=
  let x := nat_of_ascii a in
  let y := nat_of_ascii b in
  let z := nat_of_ascii c in
  bool_decide
    ((x = 225 ∧ y = 154 ∧ z = 128)
     ∨ (x = 226 ∧ y = 128 ∧ ((128 ≤ z)%nat ∧ (z ≤ 138)%nat ∨ z ∈ [168; 169; 175]))
     ∨ (x = 226 ∧ y = 129 ∧ z = 159)
     ∨ (x = 227 ∧ y = 128 ∧ z = 128)
     ∨ (x = 239 ∧ y = 187 ∧ z = 191)).

(** Strip the leading code points that [w1], [w2] and [w3] recognise by
    their one, two or three bytes. *)
Fixpoint strip (w1 : ascii → bool) (w2 : ascii → ascii → bool)
    (w3 : ascii → ascii → ascii → bool) (s : string) : string :=
  match s with
  | String a r =>
      if w1 a then strip w1 w2 w3 r
      else match r with
           | String b r' =>
               if w2 a b then strip w1 w2 w3 r'
               else match r' with
                    | String c r'' => if w3 a b c then strip w1 w2 w3 r'' else s
                    | EmptyString => s
                    end
           | EmptyString => s
           end
  | EmptyString => EmptyString
  end.

(** [trimStart]: strip leading white space. *)
Definition trimStart (s : string) : string := strip ws1 ws2 ws3 s.

(** [trimEnd], on the reversed string: the bytes of a code point come in
    the reverse order. *)
Definition trimEnd_rev (s : string) : string :=
  strip ws1 (λ b a, ws2 a b) (λ c b a, ws3 a b c) s.

(** [String.prototype.trim]. *)
Definition trim (s : string) : string :=
  String.rev (trimEnd_rev (String.rev (trimStart s))).

(** [s.startsWith(p)]. *)
Definition startsWith (s p : string) : bool := String.prefix p s.

(** [s.endsWith(p)]. *)
Definition endsWith (s p : string) : bool :=
  String.prefix (String.rev p) (String.rev s).

(** ASCII lower-casing, as the host applies to names in HTML documents. *)
Definition ascii_lower (c : ascii) : ascii :=
  let n := nat_of_ascii c in
  if (65 <=? n)%nat && (n <=? 90)%nat then ascii_of_nat (n + 32) else c.

Fixpoint lower (s : string) : string :=
  match s with
  | String c r => String (ascii_lower c) (lower r)
  | EmptyString => EmptyString
  end.

Definition ascii_upper (c : ascii) : ascii :=
  let n := nat_of_ascii c in
  if (97 <=? n)%nat && (n <=? 122)%nat then ascii_of_nat (n - 32) else c.

Fixpoint upper (s : string) : string :=
  match s with
  | String c r => String (ascii_upper c) (upper r)
  | EmptyString => EmptyString
  end.

(** [s.includes(c)] for a single character. *)
Fixpoint has_char (p : ascii → bool) (s : string) : bool :=
  match s with
  | String c r => p c || has_char p r
  | EmptyString => false
  end.

(** A surrogate code unit without its partner shows in the bytes as [ED]
    followed by a byte from [A0] to [BF] (a pair of surrogates is one code
    point of four bytes). *)
Fixpoint has_lone_surrogate (s : string) : bool :=
  match s with
  | String a r =>
      match r with
      | String b _ =>
          ((nat_of_ascii a =? 237) && (160 <=? nat_of_ascii b)
           && (nat_of_ascii b <=? 191))%nat
          || has_lone_surrogate r
      | EmptyString => false
      end
  | EmptyString => false
  end.

(** [encodeURIComponent] on a string given by its bytes: the unreserved
    characters [A-Z a-z 0-9 - _ . ! ~ * ' ( )] stand for themselves, every
    other byte of the UTF-8 form becomes [%XX]; a string with a lone
    surrogate has no UTF-8 form and the function throws a [URIError]. *)
Definition is_unreserved (c : ascii) : bool :=
  let n := nat_of_ascii c in
  ((65 <=? n) && (n <=? 90) || (97 <=? n) && (n <=? 122) || (48 <=? n) && (n <=? 57)
   || bool_decide (n ∈ [45; 95; 46; 33; 126; 42; 39; 40; 41]))%nat.

Definition hex_digit (n : nat) : ascii :=
  if (n <? 10)%nat then ascii_of_nat (48 + n) else ascii_of_nat (55 + n).

Definition percent (c : ascii) : string :=
  let n := nat_of_ascii c in
  String "%" (String (hex_digit (n / 16)) (String (hex_digit (n mod 16)) "")).

Fixpoint encode_string (s : string) : string :=
  match s with
  | String c r =>
      (if is_unreserved c then String c "" else percent c) +:+ encode_string r
  | EmptyString => EmptyString
  end.

(** [encodeURIComponent(v)]: the argument is converted with [String] first;
    a property that is absent reads as [undefined].  [None] is the
    [URIError]. *)
Definition encodeURIComponent (v : option string) : option string :=
  let s := default "undefined" v in
  if has_lone_surrogate s then None else Some (encode_string s).

(** [array.join(sep)] on an array of strings. *)
Fixpoint join (sep : string) (l : list string) : string :=
  match l with
  | [] => ""
  | [x] => x
  | x :: r => x +:+ sep +:+ join sep r
  end.

End JS.

(** ** The host heap *)

(** Element objects are referenced by [node]; collection objects by [qref]. *)
Definition node := nat.
Definition qref := nat.

(** A child is an element, by reference, or a text node, by its data. *)
Inductive child :=
  | CElem (n : node)
  | CText (t : string).

Global Instance child_eq_dec : EqDecision child.
Proof. solve_decision. Defined.

(** A parsed fragment, before its elements are created in the heap. *)
#[warnings="-register-all"]
Inductive tree :=
  | TText (t : string)
  | TElem (tag : string) (attrs : list (string * string)) (kids : list tree).

(** The [options] argument of [on], [off] and [one]:
    [boolean | EventListenerOptions], or absent. *)
Inductive listener_options :=
  | OptUndefined
  | OptBool (b : bool)
  | OptObject (capture once : bool).

Global Instance listener_options_eq_dec : EqDecision listener_options.
Proof. solve_decision. Defined.

(** Functions that can be registered as listeners: a function of the client,
    known by its identity, or the closure [oneTimeHandler] that one call of
    [one] creates, with the variables it captures ([self], [handler],
    [options]); [cid] is the identity of the closure. *)
Inductive callback :=
  | UserFn (f : nat)
  | OneTimeHandler (cid : nat) (self : qref) (handler : nat)
      (options : listener_options).

Global Instance callback_eq_dec : EqDecision callback.
Proof. solve_decision. Defined.

(** An entry of an element's event listener list. *)
Record listener := Listener {
  l_type : string;
  l_callback : callback;
  l_capture : bool;
  l_once : bool
}.

Global Instance listener_eq_dec : EqDecision listener.
Proof. solve_decision. Defined.

(** The properties of an element object that the library reads or writes.
    [parentNode] is [None] for an element without a parent (the document
    node itself is not an object of this heap).  [el_value] is [None] where
    the element has no [value] property, [el_options] and [el_elements]
    where it has no [options] (it is not a [select]) and no [elements] (it
    is not a [form]); a missing [name] or [type] reads as the empty string
    here (the code only tests [name] for truth and compares [type] with
    non-empty strings).

    The fields are independent: the content attributes of [el_attributes]
    are what [setAttribute] writes and [getAttribute] reads, and what the
    host derives from them (the class list, [name], [checked] and the like,
    also of other elements) is not computed here.

    [el_named] is the table of named properties that the host gives a
    [form]: each supported name (the [id] or [name] of a control or of an
    image of the form, or a past name) with the elements of that name.  A
    form looks a property up in this table first
    ([LegacyOverrideBuiltIns]); the table of any other element is empty. *)
Record element := Element {
  localName : string;
  parentNode : option node;
  childNodes : list child;
  el_attributes : list (string * string);
  classList : list string;
  el_listeners : list listener;
  el_name : string;
  el_type : string;
  el_value : option string;
  disabled : bool;
  checked : bool;
  selected : bool;
  el_options : option (list node);
  el_elements : option (list node);
  el_named : list (string * list node)
}.

Definition set_parentNode (p : option node) (e : element) : element :=
  Element (localName e) p (childNodes e) (el_attributes e) (classList e)
    (el_listeners e) (el_name e) (el_type e) (el_value e) (disabled e)
    (checked e) (selected e) (el_options e) (el_elements e) (el_named e).

Definition set_childNodes (c : list child) (e : element) : element :=
  Element (localName e) (parentNode e) c (el_attributes e) (classList e)
    (el_listeners e) (el_name e) (el_type e) (el_value e) (disabled e)
    (checked e) (selected e) (el_options e) (el_elements e) (el_named e).

Definition set_attributes (a : list (string * string)) (e : element) : element :=
  Element (localName e) (parentNode e) (childNodes e) a (classList e)
    (el_listeners e) (el_name e) (el_type e) (el_value e) (disabled e)
    (checked e) (selected e) (el_options e) (el_elements e) (el_named e).

Definition set_classList (c : list string) (e : element) : element :=
  Element (localName e) (parentNode e) (childNodes e) (el_attributes e) c
    (el_listeners e) (el_name e) (el_type e) (el_value e) (disabled e)
    (checked e) (selected e) (el_options e) (el_elements e) (el_named e).

Definition set_listeners (l : list listener) (e : element) : element :=
  Element (localName e) (parentNode e) (childNodes e) (el_attributes e)
    (classList e) l (el_name e) (el_type e) (el_value e) (disabled e)
    (checked e) (selected e) (el_options e) (el_elements e) (el_named e).

(** The element [document.createElement] returns: no parent, no children,
    no attributes. *)
Definition new_element (tag : string) : element :=
  Element tag None [] [] [] [] "" "" None false false false None None [].

Global Instance element_inhabited : Inhabited element :=
  populate (new_element "").

(** [tagName] of an element of an HTML document. *)
Definition tagName (e : element) : string := JS.upper (localName e).

(** The elements that the named property [key] of the object stands for;
    none when the object has no such named property. *)
Definition named (e : element) (key : string) : list node :=
  match list_find (λ kv, kv.1 = key) (el_named e) with
  | Some (_, (_, l)) => l
  | None => []
  end.

(** One call of a client function: the function, its [this] and the type of
    the event it received. *)
Record call := Call {
  c_fn : nat;
  c_this : node;
  c_type : string
}.

Global Instance call_eq_dec : EqDecision call.
Proof. solve_decision. Defined.

(** The state of the page: the element objects, the collection objects (a
    [Query] is its [nodes] array), the next closure identity, and the calls
    of client functions made so far. *)
Record state := State {
  heap : gmap node element;
  queries : gmap qref (list node);
  next_closure : nat;
  trace : list call
}.

Definition set_heap (h : gmap node element) (s : state) : state :=
  State h (queries s) (next_closure s) (trace s).

(** The element behind a reference. *)
Definition elem (s : state) (n : node) : element :=
  default (new_element "") (heap s !! n).

(** In-place update of one element object. *)
Definition update (n : node) (f : element → element) (s : state) : state :=
  set_heap (alter f n (heap s)) s.

(** A reference no element object has yet. *)
Definition fresh_node (s : state) : node := fresh (dom (heap s)).

(** ** Exceptions and the monad of the code *)

(** The errors of the language and of the host; [ClientError] is whatever a
    function of the client throws. *)

Inductive exn :=
  | TypeError
  | SyntaxError
  | URIError
  | InvalidCharacterError
  | NoModificationAllowedError
  | NotFoundError
  | ClientError.

(** A computation ends normally with a value, or throws; in both cases the
    state it reached is kept, since the effects made before a [throw] stay. *)
Inductive outcome (A : Type) :=
  | Normal (a : A) (s : state)
  | Throw (e : exn) (s : state).
Arguments Normal {A} a s.
Arguments Throw {A} e s.

Definition M (A : Type) : Type := state → outcome A.

Definition ret {A} (a : A) : M A := λ s, Normal a s.

Definition bind {A B} (m : M A) (k : A → M B) : M B :=
  λ s, match m s with
       | Normal a s' => k a s'
       | Throw e s' => Throw e s'
       end.

Definition throw {A} (e : exn) : M A := λ s, Throw e s.

Definition get : M state := λ s, Normal s s.

Definition modify (f : state → state) : M unit := λ s, Normal tt (f s).

Declare Scope js_scope.
Delimit Scope js_scope with js.
Notation "'let*' x := m 'in' k" := (bind m (λ x, k))
  (at level 10, x name, m at level 100, k at level 200, only parsing) : js_scope.
Notation "m ;;; k" := (bind m (λ _, k))
  (at level 100, k at level 200, right associativity, only parsing) : js_scope.
Local Open Scope js_scope.

(** [for (const x of l) body]. *)
Fixpoint for_of {A} (l : list A) (body : A → M unit) : M unit :=
  match l with
  | [] => ret tt
  | x :: r => body x ;;; for_of r body
  end.

(** The state an outcome carries. *)
Definition final {A} (o : outcome A) : state :=
  match o with
  | Normal _ s => s
  | Throw _ s => s
  end.


(** ** The host interface *)

(** What the host computes on its own and the library only forwards to:
    - [parseFragment ctx markup]: the fragment parser, for a context element
      with local name [ctx];
    - [textFragment t]: the text and line-break nodes [innerText = t] makes;
    - [innerHTML_of], [innerText_of]: the markup and the rendered text of
      an element's content;
    - [querySelectorAll sel h]: the elements matching a selector, in
      document order, or [None] where the selector does not parse. *)
Class Host := {
  parseFragment : string → string → list tree;
  textFragment : string → list tree;
  innerHTML_of : gmap node element → node → string;
  innerText_of : gmap node element → node → string;
  querySelectorAll : string → gmap node element → option (list node)
}.

(** ** The client *)

(** A function of the client is known by its identity; of what a call of it
    does, the library and the host only see whether it returns or throws. *)
Class Client := {
  fn_throws : nat → bool
}.

(** ** DOM primitives *)

(** ASCII whitespace of the Infra Standard. *)
Definition is_ascii_whitespace (c : ascii) : bool :=
  bool_decide (nat_of_ascii c ∈ [9; 10; 12; 13; 32]).

Definition is_ascii_alpha (c : ascii) : bool :=
  let n := nat_of_ascii c in
  ((65 <=? n) && (n <=? 90) || (97 <=? n) && (n <=? 122))%nat.

Definition is_ascii_alphanumeric (c : ascii) : bool :=
  let n := nat_of_ascii c in
  (is_ascii_alpha c || (48 <=? n) && (n <=? 57))%nat.

(** DOM Standard, valid attribute local name: at least one character, none
    of them ASCII whitespace, NULL, [/], [=] or [>]. *)
Definition valid_attribute_local_name (x : string) : bool :=
  negb (bool_decide (x = ""))
  && negb (JS.has_char (λ c, is_ascii_whitespace c
             || bool_decide (nat_of_ascii c ∈ [0; 47; 61; 62])) x).

(** DOM Standard, valid element local name. *)
Definition valid_element_local_name (x : string) : bool :=
  match x with
  | EmptyString => false
  | String c r =>
      if is_ascii_alpha c then
        negb (JS.has_char (λ c, is_ascii_whitespace c
                || bool_decide (nat_of_ascii c ∈ [0; 47; 62])) r)
      else
        (bool_decide (nat_of_ascii c ∈ [58; 95]) || (128 <=? nat_of_ascii c)%nat)
        && negb (JS.has_char (λ c, negb (is_ascii_alphanumeric c
                   || bool_decide (nat_of_ascii c ∈ [45; 46; 58; 95])
                   || (128 <=? nat_of_ascii c)%nat)) r)
  end.

(** *** Class lists *)

(** The token checks of [DOMTokenList]'s [add], [remove] and [toggle]. *)
Definition check_token {A} (token : string) (k : M A) : M A :=
  if bool_decide (token = "") then throw SyntaxError
  else if JS.has_char is_ascii_whitespace token then throw InvalidCharacterError
  else k.

Definition classList_add (n : node) (token : string) : M unit :=
  check_token token
    (modify (update n (λ e,
       if bool_decide (token ∈ classList e) then e
       else set_classList (classList e ++ [token]) e))).

Definition classList_remove (n : node) (token : string) : M unit :=
  check_token token
    (modify (update n (λ e,
       set_classList (filter (λ t, t ≠ token) (classList e)) e))).

Definition classList_toggle (n : node) (token : string) : M unit :=
  check_token token
    (modify (update n (λ e,
       if bool_decide (token ∈ classList e)
       then set_classList (filter (λ t, t ≠ token) (classList e)) e
       else set_classList (classList e ++ [token]) e))).

(** *** Attributes *)

Fixpoint assoc_get (k : string) (l : list (string * string)) : option string :=
  match l with
  | [] => None
  | (k', v) :: r => if bool_decide (k' = k) then Some v else assoc_get k r
  end.

(** Change the value in place, or add the attribute at the end. *)
Fixpoint assoc_set (k v : string) (l : list (string * string))
  : list (string * string) :=
  match l with
  | [] => [(k, v)]
  | (k', v') :: r =>
      if bool_decide (k' = k) then (k, v) :: r else (k', v') :: assoc_set k v r
  end.

(** [n.getAttribute(name)]: the value, or null. *)
Definition getAttribute (s : state) (n : node) (name : string) : option string :=
  assoc_get (JS.lower name) (el_attributes (elem s n)).

(** [n.setAttribute(name, value)]. *)
Definition setAttribute (n : node) (name : string) (v : JS.value) : M unit :=
  if valid_attribute_local_name name then
    modify (update n (λ e,
      set_attributes (assoc_set (JS.lower name) (JS.ToString v) (el_attributes e)) e))
  else throw InvalidCharacterError.

(** *** Creating elements *)

(** Allocate an element object. *)
Definition alloc (e : element) : M node :=
  λ s, let n := fresh_node s in Normal n (set_heap (<[n := e]> (heap s)) s).

(** [document.createElement(tag)]. *)
Definition createElement (tag : string) : M node :=
  if valid_element_local_name tag then alloc (new_element (JS.lower tag))
  else throw InvalidCharacterError.

(** Create the nodes of a parsed fragment under [parent]; the result is the
    fragment's top-level children. *)
Fixpoint alloc_tree (parent : node) (t : tree) (s : state) : child * state :=
  match t with
  | TText x => (CText x, s)
  | TElem tag attrs kids =>
      let n := fresh_node s in
      let e := set_attributes attrs (set_parentNode (Some parent) (new_element tag)) in
      let s1 := set_heap (<[n := e]> (heap s)) s in
      let '(cs, s2) :=
        (fix go (ts : list tree) (s : state) : list child * state :=
           match ts with
           | [] => ([], s)
           | t :: ts' =>
               let '(c, s') := alloc_tree n t s in
               let '(cs, s'') := go ts' s' in
               (c :: cs, s'')
           end) kids s1 in
      (CElem n, update n (set_childNodes cs) s2)
  end.

Fixpoint alloc_trees (parent : node) (ts : list tree) (s : state)
  : list child * state :=
  match ts with
  | [] => ([], s)
  | t :: ts' =>
      let '(c, s') := alloc_tree parent t s in
      let '(cs, s'') := alloc_trees parent ts' s' in
      (c :: cs, s'')
  end.

Definition alloc_fragment (parent : node) (ts : list tree) : M (list child) :=
  λ s, let '(cs, s') := alloc_trees parent ts s in Normal cs s'.

(** *** Tree mutation *)

(** A child of a parent is designated by its position in [childNodes]. *)
Fixpoint index_of (n : node) (cs : list child) : option nat :=
  match cs with
  | [] => None
  | c :: r => if bool_decide (c = CElem n) then Some 0 else S <$> index_of n r
  end.

Definition splice (i : nat) (new cs : list child) : list child :=
  take i cs ++ new ++ drop i cs.

(** [n.nextSibling], as a position among the parent's children; [None] is
    null. *)
Definition nextSibling (s : state) (n : node) : option nat :=
  match parentNode (elem s n) with
  | Some p =>
      match index_of n (childNodes (elem s p)) with
      | Some i => if bool_decide (S i < length (childNodes (elem s p)))
                  then Some (S i) else None
      | None => None
      end
  | None => None
  end.

(** [n.firstChild], as a position; [None] is null. *)
Definition firstChild (s : state) (n : node) : option nat :=
  match childNodes (elem s n) with
  | [] => None
  | _ :: _ => Some 0
  end.

(** [p.insertBefore(c, ref)] for a node [c] that has no parent yet (the code
    only inserts what [createElement] has just returned): [c] goes before
    the child at position [ref], at the end when [ref] is null. *)
Definition insertBefore (p c : node) (ref : option nat) : M unit :=
  modify (λ s,
    let i := default (length (childNodes (elem s p))) ref in
    update c (set_parentNode (Some p))
      (update p (λ e, set_childNodes (splice i [CElem c] (childNodes e)) e) s)).

(** [p.appendChild(c)]. *)
Definition appendChild (p c : node) : M unit := insertBefore p c None.

(** [p.removeChild(n)]. *)
Definition removeChild (p n : node) : M unit :=
  λ s, if bool_decide (parentNode (elem s n) = Some p) then
         Normal tt
           (update n (set_parentNode None)
              (update p (λ e, set_childNodes
                                (filter (λ c, c ≠ CElem n) (childNodes e)) e) s))
       else Throw NotFoundError s.

Inductive position := beforebegin | afterbegin | beforeend | afterend.

(** [n.insertAdjacentHTML(position, markup)]. *)
Definition insertAdjacentHTML `{Host} (n : node) (w : position) (markup : string)
  : M unit :=
  let* s := get in
  match w with
  | beforebegin | afterend =>
      match parentNode (elem s n) with
      | None => throw NoModificationAllowedError
      | Some p =>
          let* cs := alloc_fragment p (parseFragment (localName (elem s p)) markup) in
          let* s' := get in
          match index_of n (childNodes (elem s' p)) with
          | Some i =>
              let j := match w with beforebegin => i | _ => S i end in
              modify (update p (λ e, set_childNodes (splice j cs (childNodes e)) e))
          | None => throw NotFoundError
          end
      end
  | afterbegin =>
      let* cs := alloc_fragment n (parseFragment (localName (elem s n)) markup) in
      modify (update n (λ e, set_childNodes (cs ++ childNodes e) e))
  | beforeend =>
      let* cs := alloc_fragment n (parseFragment (localName (elem s n)) markup) in
      modify (update n (λ e, set_childNodes (childNodes e ++ cs) e))
  end.

(** Replace all children of [n] by a fragment: the old element children
    lose their parent. *)
Definition orphan (c : child) (s : state) : state :=
  match c with
  | CElem m => update m (set_parentNode None) s
  | CText _ => s
  end.

Definition replace_children (n : node) (ts : list tree) : M unit :=
  modify (λ s, foldr orphan s (childNodes (elem s n))) ;;;
  let* cs := alloc_fragment n ts in
  modify (update n (set_childNodes cs)).

(** [n.innerHTML = markup] and [n.innerText = t]. *)
Definition set_innerHTML `{Host} (n : node) (markup : string) : M unit :=
  let* s := get in
  replace_children n (parseFragment (localName (elem s n)) markup).

Definition set_innerText `{Host} (n : node) (t : string) : M unit :=
  replace_children n (textFragment t).

(** *** Event listeners *)

(** [options || false]. *)
Definition or_false (o : listener_options) : listener_options :=
  match o with
  | OptUndefined => OptBool false
  | _ => o
  end.

(** Flattening of the options argument. *)
Definition capture_of (o : listener_options) : bool :=
  match o with
  | OptUndefined => false
  | OptBool b => b
  | OptObject c _ => c
  end.

Definition once_of (o : listener_options) : bool :=
  match o with
  | OptObject _ o => o
  | _ => false
  end.

(** Two listeners are the same when type, callback and capture agree. *)
Definition same_listener (t : string) (cb : callback) (cap : bool) (l : listener)
  : Prop :=
  l_type l = t ∧ l_callback l = cb ∧ l_capture l = cap.

Global Instance same_listener_dec t cb cap l : Decision (same_listener t cb cap l).
Proof. unfold same_listener. apply _. Defined.

(** [n.addEventListener(type, callback, options)]: appended unless the same
    listener is in the list already. *)
Definition addEventListener (n : node) (t : string) (cb : callback)
    (o : listener_options) : M unit :=
  modify (update n (λ e,
    if bool_decide (Exists (same_listener t cb (capture_of o)) (el_listeners e))
    then e
    else set_listeners
           (el_listeners e ++ [Listener t cb (capture_of o) (once_of o)]) e)).

(** [n.removeEventListener(type, callback, options)]. *)
Definition removeEventListener (n : node) (t : string) (cb : callback)
    (o : listener_options) : M unit :=
  modify (update n (λ e,
    set_listeners
      (filter (λ l, ¬ same_listener t cb (capture_of o) l) (el_listeners e)) e)).

Definition log (c : call) (s : state) : state :=
  State (heap s) (queries s) (next_closure s) (trace s ++ [c]).

(** ** The library *)

(** What a method returns: [this], a string or null, or the records of
    [serializeArray]. *)
Inductive retval :=
  | RThis (this : qref)
  | RValue (v : option string)
  | RRecords (l : list (string * option string)).

(** [isHTMLString(input)]. *)
Definition isHTMLString (input : JS.value) : bool :=
  match input with
  | JS.VStr x =>
      JS.startsWith (JS.trim x) "<" && JS.endsWith (JS.trim x) ">"
  | _ => false
  end.

(** What the resolver receives: a string, an [HTMLElement], a [NodeList],
    an [HTMLCollection], or any other value. *)
Inductive selector :=
  | SelString (sel : string)
  | SelElement (n : node)
  | SelNodeList (l : list node)
  | SelHTMLCollection (l : list node)
  | SelOther (v : JS.value).

(** The argument of [Query]: a host collection, or an element object. *)
Inductive array_like :=
  | ALList (l : list node)
  | ALElement (n : node).

(** The indexed properties of a host object, with its [length]: the
    members of a collection, the options of a [select], the controls of a
    [form]; other elements have none.  A [form] whose [length] is shadowed
    by a named property has no numeric [length], and [Array.from], which
    iterates up to the [length], finds nothing. *)
Definition indexed (s : state) (x : array_like) : option (list node) :=
  match x with
  | ALList l => Some l
  | ALElement n =>
      let e := elem s n in
      if bool_decide (tagName e = "SELECT") then el_options e
      else if bool_decide (tagName e = "FORM") then
        if bool_decide (named e "length" = []) then el_elements e else None
      else None
  end.

(** [x.length]; [None] is undefined. *)
Definition length_of (s : state) (x : array_like) : option nat :=
  length <$> indexed s x.

(** [Array.from(x)]: an object without [length] gives the empty array. *)
Definition Array_from (s : state) (x : array_like) : list node :=
  default [] (indexed s x).

(** [this.nodes]. *)
Definition this_nodes (this : qref) : M (list node) :=
  λ s, Normal (default [] (queries s !! this)) s.

(** [new Query(nodes)]: the new object holds
    [nodes.length === 1 ? [nodes[0]] : Array.from(nodes)]. *)
Definition Query (nodes : array_like) : M qref :=
  λ s,
    let arr := if bool_decide (length_of s nodes = Some 1)
               then take 1 (Array_from s nodes)
               else Array_from s nodes in
    let q := fresh (dom (queries s)) in
    Normal q (State (heap s) (<[q := arr]> (queries s)) (next_closure s) (trace s)).

Section Library.
Context `{Host} `{Client}.

(** The branch of [nq] for a string:
    [new Query(document.querySelectorAll.call(document, selector))]. *)
Definition nq_string (x : string) : M (option qref) :=
  let* s := get in
  match querySelectorAll x (heap s) with
  | Some l => let* q := Query (ALList l) in ret (Some q)
  | None => throw SyntaxError
  end.

(** [nq(selector)]; [None] is the [undefined] an unrecognised input gets.
    On an element, [selector.tagName] and [selector.elements] are property
    reads: on a [form] a named property of that name comes first, and is an
    element (or a list of elements), not the string ['FORM'] or the
    controls. *)
Definition nq (sel : selector) : M (option qref) :=
  match sel with
  | SelString x => nq_string x
  | SelElement n =>
      let* s := get in
      let e := elem s n in
      let* q :=
        if bool_decide (named e "tagName" = []) && bool_decide (tagName e = "FORM")
        then
          match named e "elements" with
          | [] =>
              match el_elements e with
              | Some l => Query (ALList l)
              | None => throw TypeError
              end
          | [c] => Query (ALElement c)
          | cs => Query (ALList cs)
          end
        else Query (ALElement n) in
      ret (Some q)
  | SelNodeList l | SelHTMLCollection l =>
      let* q := Query (ALList l) in ret (Some q)
  | SelOther (JS.VStr x) => nq_string x
  | SelOther _ => ret None
  end.

Definition addClass (this : qref) (className : string) : M retval :=
  let* nodes := this_nodes this in
  for_of nodes (λ node, classList_add node className) ;;;
  ret (RThis this).

(** The tag-name branch shared by the four insertion methods, up to the
    insertion itself: create the element, set the attributes. *)
Definition create_with (input : string)
    (attributes : option (list (string * JS.value))) : M node :=
  let* newElement := createElement input in
  match attributes with
  | Some kv => for_of kv (λ '(attr, v), setAttribute newElement attr v)
  | None => ret tt
  end ;;;
  ret newElement.

Definition after (this : qref) (input : JS.value)
    (attributes : option (list (string * JS.value))) : M retval :=
  let* nodes := this_nodes this in
  for_of nodes (λ node,
    if isHTMLString input then
      insertAdjacentHTML node afterend (JS.ToString input)
    else match input with
    | JS.VStr tag =>
        let* newElement := create_with tag attributes in
        let* s := get in
        match parentNode (elem s node) with
        | Some p => insertBefore p newElement (nextSibling s node)
        | None => throw TypeError
        end
    | _ => ret tt
    end) ;;;
  ret (RThis this).

Definition append (this : qref) (input : JS.value)
    (attributes : option (list (string * JS.value))) : M retval :=
  let* nodes := this_nodes this in
  for_of nodes (λ parentNode,
    if isHTMLString input then
      insertAdjacentHTML parentNode beforeend (JS.ToString input)
    else match input with
    | JS.VStr tag =>
        let* newElement := create_with tag attributes in
        appendChild parentNode newElement
    | _ => ret tt
    end) ;;;
  ret (RThis this).

Definition attr (this : qref) (attr : string) (value : JS.value) : M retval :=
  let* nodes := this_nodes this in
  if bool_decide (value ≠ JS.VUndefined) then
    for_of nodes (λ node, setAttribute node attr value) ;;;
    ret (RThis this)
  else
    let* s := get in
    ret (RValue match nodes with
                | n0 :: _ => getAttribute s n0 attr
                | [] => None
                end).

Definition before (this : qref) (input : JS.value)
    (attributes : option (list (string * JS.value))) : M retval :=
  let* nodes := this_nodes this in
  for_of nodes (λ node,
    if isHTMLString input then
      insertAdjacentHTML node beforebegin (JS.ToString input)
    else match input with
    | JS.VStr tag =>
        let* newElement := create_with tag attributes in
        let* s := get in
        match parentNode (elem s node) with
        | Some p =>
            match index_of node (childNodes (elem s p)) with
            | Some i => insertBefore p newElement (Some i)
            | None => throw NotFoundError
            end
        | None => throw TypeError
        end
    | _ => ret tt
    end) ;;;
  ret (RThis this).

Definition html (this : qref) (content : JS.value) : M retval :=
  let* nodes := this_nodes this in
  if bool_decide (content ≠ JS.VUndefined) then
    for_of nodes (λ node, set_innerHTML node (JS.ToStringNullEmpty content)) ;;;
    ret (RThis this)
  else
    let* s := get in
    ret (RValue match nodes with
                | n0 :: _ => Some (innerHTML_of (heap s) n0)
                | [] => None
                end).

Definition off (this : qref) (event : string) (listener : callback)
    (options : listener_options) : M retval :=
  let* nodes := this_nodes this in
  for_of nodes (λ node,
    removeEventListener node event listener (or_false options)) ;;;
  ret (RThis this).

Definition on (this : qref) (event : string) (handler : callback)
    (options : listener_options) : M retval :=
  let* nodes := this_nodes this in
  for_of nodes (λ node,
    addEventListener node event handler (or_false options)) ;;;
  ret (RThis this).

(** A call [f.call(this, event)] of a function of the client: the call is
    recorded in the trace, and the function returns or throws. *)
Definition call_client (f : nat) (this : node) (event_type : string) : M unit :=
  modify (log (Call f this event_type)) ;;;
  if fn_throws f then throw ClientError else ret tt.

(** The body of the closure [oneTimeHandler] of [one], called by the host
    with [this] the element the listener is on; [me] is the closure itself.
    When [handler] throws, the call of [self.off] is not reached. *)
Definition oneTimeHandler (me : callback) (self : qref) (handler : nat)
    (options : listener_options) (this : node) (event_type : string) : M unit :=
  call_client handler this event_type ;;;
  off self event_type me options ;;;
  ret tt.

Definition one (this : qref) (event : string) (handler : nat)
    (options : listener_options) : M retval :=
  let self := this in
  let* s := get in
  let closure := OneTimeHandler (next_closure s) self handler options in
  modify (λ s, State (heap s) (queries s) (S (next_closure s)) (trace s)) ;;;
  on this event closure options.

Definition prepend (this : qref) (input : JS.value)
    (attributes : option (list (string * JS.value))) : M retval :=
  let* nodes := this_nodes this in
  for_of nodes (λ parentNode,
    if isHTMLString input then
      insertAdjacentHTML parentNode afterbegin (JS.ToString input)
    else match input with
    | JS.VStr tag =>
        let* newElement := create_with tag attributes in
        let* s := get in
        insertBefore parentNode newElement (firstChild s parentNode)
    | _ => ret tt
    end) ;;;
  ret (RThis this).

Definition remove (this : qref) : M retval :=
  let* nodes := this_nodes this in
  for_of nodes (λ node,
    let* s := get in
    match parentNode (elem s node) with
    | Some p => removeChild p node
    | None => ret tt
    end) ;;;
  ret (RThis this).

Definition removeClass (this : qref) (className : string) : M retval :=
  let* nodes := this_nodes this in
  for_of nodes (λ node, classList_remove node className) ;;;
  ret (RThis this).

(** The test that opens both serializers:
    [element.name && !element.disabled
     && ['file','reset','submit','button'].indexOf(element.type) === -1]. *)
Definition eligible (e : element) : bool :=
  negb (bool_decide (el_name e = ""))
  && negb (disabled e)
  && negb (bool_decide (el_type e ∈ ["file"; "reset"; "submit"; "button"])).

(** [(element.type !== 'checkbox' && element.type !== 'radio') || element.checked]. *)
Definition unchecked_or_checked (e : element) : bool :=
  (negb (bool_decide (el_type e = "checkbox"))
   && negb (bool_decide (el_type e = "radio")))
  || checked e.

(** A loop that builds an array and stops at the first error. *)
Fixpoint fold_err {A B} (f : B → A → exn + B) (acc : B) (l : list A) : exn + B :=
  match l with
  | [] => inr acc
  | x :: r =>
      match f acc x with
      | inr acc' => fold_err f acc' r
      | inl e => inl e
      end
  end.

(** [acc.push(x)], where computing [x] may throw. *)
Definition push_err {A} (acc : list A) (x : exn + A) : exn + list A :=
  match x with
  | inr a => inr (acc ++ [a])
  | inl e => inl e
  end.

(** One turn of the loop that [serialize] and [serializeArray] share in
    shape; [acc] is the array built so far and [item] is what the method
    pushes for a name and a value.  The loops only read the page, so they
    are functions of the state that return the array or the error.  On an
    element without [options], [for (const option of element.options)]
    throws a [TypeError]. *)
Definition serialize_step {A} (s : state) (item : string → option string → exn + A)
    (acc : list A) (n : node) : exn + list A :=
  let element := elem s n in
  if eligible element then
    if bool_decide (el_type element = "select-multiple") then
      match el_options element with
      | Some options =>
          fold_err (λ acc o,
            let opt := elem s o in
            if selected opt
            then push_err acc (item (el_name element) (el_value opt))
            else inr acc) acc options
      | None => inl TypeError
      end
    else if unchecked_or_checked element then
      push_err acc (item (el_name element) (el_value element))
    else inr acc
  else inr acc.

Definition serialize_loop {A} (s : state) (item : string → option string → exn + A)
    (nodes : list node) : exn + list A :=
  fold_err (serialize_step s item) [] nodes.

(** [encodeURIComponent(name) + '=' + encodeURIComponent(value)]. *)
Definition encoded_pair (name : string) (value : option string) : exn + string :=
  match JS.encodeURIComponent (Some name) with
  | Some a =>
      match JS.encodeURIComponent value with
      | Some b => inr (a +:+ "=" +:+ b)
      | None => inl URIError
      end
  | None => inl URIError
  end.

Definition serialize (this : qref) : M retval :=
  let* nodes := this_nodes this in
  let* s := get in
  match serialize_loop s encoded_pair nodes with
  | inr formElements => ret (RValue (Some (JS.join "&" formElements)))
  | inl e => throw e
  end.

Definition serializeArray (this : qref) : M retval :=
  let* nodes := this_nodes this in
  let* s := get in
  match serialize_loop s (λ name value, inr (name, value)) nodes with
  | inr formArray => ret (RRecords formArray)
  | inl e => throw e
  end.

Definition text (this : qref) (content : JS.value) : M retval :=
  let* nodes := this_nodes this in
  if bool_decide (content ≠ JS.VUndefined) then
    for_of nodes (λ node, set_innerText node (JS.ToStringNullEmpty content)) ;;;
    ret (RThis this)
  else
    let* s := get in
    ret (RValue match nodes with
                | n0 :: _ => Some (innerText_of (heap s) n0)
                | [] => None
                end).

Definition toggleClass (this : qref) (className : string) : M retval :=
  let* nodes := this_nodes this in
  for_of nodes (λ node, classList_toggle node className) ;;;
  ret (RThis this).

(** ** Event dispatch by the host *)

(** The host calls a listener's callback with [this] the element the
    listener is on. *)
Definition call_callback (cb : callback) (this : node) (event_type : string)
  : M unit :=
  match cb with
  | UserFn f => call_client f this event_type
  | OneTimeHandler _ self handler options =>
      oneTimeHandler cb self handler options this event_type
  end.

(** An exception that a listener throws is reported by the host, which
    goes on; what the listener did before it threw stays. *)
Definition report (m : M unit) : M unit := λ s, Normal tt (final (m s)).

(** DOM Standard, inner invoke, for one listener of the copy of the list:
    a listener removed meanwhile, of another type or of the other phase is
    skipped; a [once] listener is removed before it is called. *)
Definition invoke_listener (current : node) (event_type : string)
    (capturing : bool) (l : listener) : M unit :=
  let* s := get in
  if bool_decide (l ∈ el_listeners (elem s current))
     && bool_decide (l_type l = event_type)
     && bool_decide (l_capture l = capturing)
  then
    (if l_once l then
       modify (update current (λ e,
         set_listeners (filter (λ l', l' ≠ l) (el_listeners e)) e))
     else ret tt) ;;;
    report (call_callback (l_callback l) current event_type)
  else ret tt.

(** DOM Standard, inner invoke, on the element [current] of the path: run
    over a copy of its listener list. *)
Definition inner_invoke (current : node) (event_type : string) (capturing : bool)
  : M unit :=
  let* s := get in
  for_of (el_listeners (elem s current))
    (invoke_listener current event_type capturing).

(** The ancestors of an element, the nearest first, along [parentNode].
    In a tree the walk ends before it has seen as many objects as the heap
    holds. *)
Fixpoint ancestors_upto (k : nat) (s : state) (n : node) : list node :=
  match k with
  | 0 => []
  | S k =>
      match parentNode (elem s n) with
      | Some p => p :: ancestors_upto k s p
      | None => []
      end
  end.

Definition ancestors (s : state) (n : node) : list node :=
  ancestors_upto (size (heap s)) s n.

(** DOM Standard, dispatch of an event of the given type at [target]: the
    path is the target and its ancestors as they are when the dispatch
    starts.  The capturing listeners run from the outermost ancestor down
    to the target; then the other listeners run at the target and, when
    the event bubbles, from the nearest ancestor up.  The listeners here
    do not stop the propagation. *)
Definition dispatchEvent (target : node) (event_type : string) (bubbles : bool)
  : M unit :=
  let* s := get in
  let path := ancestors s target in
  for_of (reverse path) (λ a, inner_invoke a event_type true) ;;;
  inner_invoke target event_type true ;;;
  inner_invoke target event_type false ;;;
  if bubbles then for_of path (λ a, inner_invoke a event_type false)
  else ret tt.

(** ** The public surface as data *)

Inductive op :=
  | OpAddClass (className : string)
  | OpAfter (input : JS.value) (attributes : option (list (string * JS.value)))
  | OpAppend (input : JS.value) (attributes : option (list (string * JS.value)))
  | OpAttr (name : string) (value : JS.value)
  | OpBefore (input : JS.value) (attributes : option (list (string * JS.value)))
  | OpHtml (content : JS.value)
  | OpOff (event : string) (listener : callback) (options : listener_options)
  | OpOn (event : string) (handler : callback) (options : listener_options)
  | OpOne (event : string) (handler : nat) (options : listener_options)
  | OpPrepend (input : JS.value) (attributes : option (list (string * JS.value)))
  | OpRemove
  | OpRemoveClass (className : string)
  | OpSerialize
  | OpSerializeArray
  | OpText (content : JS.value)
  | OpToggleClass (className : string).

Definition run (o : op) (this : qref) : M retval :=
  match o with
  | OpAddClass c => addClass this c
  | OpAfter i a => after this i a
  | OpAppend i a => append this i a
  | OpAttr n v => attr this n v
  | OpBefore i a => before this i a
  | OpHtml c => html this c
  | OpOff e l o => off this e l o
  | OpOn e h o => on this e h o
  | OpOne e h o => one this e h o
  | OpPrepend i a => prepend this i a
  | OpRemove => remove this
  | OpRemoveClass c => removeClass this c
  | OpSerialize => serialize this
  | OpSerializeArray => serializeArray this
  | OpText c => text this c
  | OpToggleClass c => toggleClass this c
  end.

End Library.

(** ** A host for the examples *)

(** A host that knows one piece of markup, the [<span>x</span>] of the
    specification's example, and reads everything else as text; its
    selectors match nothing. *)
Definition example_host : Host := {|
  parseFragment := λ _ markup,
    if bool_decide (markup = "<span>x</span>")
    then [TElem "span" [] [TText "x"]] else [TText markup];
  textFragment := λ t, [TText t];
  innerHTML_of := λ _ _, "";
  innerText_of := λ _ _, "";
  querySelectorAll := λ _ _, Some []
|}.

(** A host whose selectors are tag names: a selector matches the elements
    of that local name, in the order of their references, and the empty
    selector does not parse. *)
Definition tag_host : Host := {|
  parseFragment := λ _ markup, [TText markup];
  textFragment := λ t, [TText t];
  innerHTML_of := λ _ _, "";
  innerText_of := λ _ _, "";
  querySelectorAll := λ sel h,
    if bool_decide (sel = "") then None
    else Some (filter (λ n, localName <$> h !! n = Some sel) (seq 0 (size h)))
|}.

(** A client whose function [13] throws; the others return. *)
Definition example_client : Client := {|
  fn_throws := λ f, bool_decide (f = 13)
|}.

Definition empty_state : state := State ∅ ∅ 0 [].

(** A page with elements [0], [1], ... made from a list of objects. *)
Definition page (es : list element) : state :=
  State (list_to_map (zip (seq 0 (length es)) es)) ∅ 0 [].


(** The page of the serialization example: a form [0] whose controls are a
    text input [a=hello], an unchecked checkbox [b] and a checked radio
    [c=yes]. *)
Definition control (type name value : string) (is_checked : bool) : element :=
  Element "input" (Some 0) [] [] [] [] name type (Some value) false is_checked
    false None None [].

Definition form_page : state :=
  page [ Element "form" None [CElem 1; CElem 2; CElem 3] [] [] [] "" "" None
           false false false None (Some [1; 2; 3])
           [("a", [1]); ("b", [2]); ("c", [3])];
         control "text" "a" "hello" false;
         control "checkbox" "b" "on" false;
         control "radio" "c" "yes" true ].

(** The form of the example after [nq(form)]; the collection is [0]. *)
Definition form_collection : state :=
  final (@nq example_host (SelElement 0) form_page).

(** A page with two sibling [div]s under a [body], and the collection [0]
    holding the two [div]s. *)
Definition two_divs : state :=
  State (heap (page [ set_childNodes [CElem 1; CElem 2] (new_element "body");
                      set_parentNode (Some 0) (new_element "div");
                      set_parentNode (Some 0) (new_element "div") ]))
        {[ 0 := [1; 2] ]} 0 [].

(** A page with one [div] that has no parent, and the collection [0]
    holding it. *)
Definition detached_div : state :=
  State (heap (page [new_element "div"])) {[ 0 := [0] ]} 0 [].



(** A callback that calls the client function [f]: the function itself, or
    a closure of [one] made for it. *)
Definition invokes (f : nat) (cb : callback) : Prop :=
  match cb with
  | UserFn g => g = f
  | OneTimeHandler _ _ h _ => h = f
  end.

Global Instance invokes_dec (f : nat) (cb : callback) : Decision (invokes f cb).
Proof. destruct cb; simpl; apply _. Defined.




(** From one state of a dispatch to a later one: the collections and the
    objects are the same, and no element has gained a listener. *)
Definition fewer_listeners (s s' : state) : Prop :=
  queries s' = queries s
  ∧ (∀ n, is_Some (heap s !! n) → is_Some (heap s' !! n))
  ∧ (∀ n l, l ∈ el_listeners (elem s' n) → l ∈ el_listeners (elem s n)).


(** A relation between the state before and the state after that a
    computation maintains whatever its outcome. *)
Definition maintains {A} (R : state → state → Prop) (m : M A) : Prop :=
  ∀ s, R s (final (m s)).

(** The collection objects are the same. *)
Definition same_queries (s s' : state) : Prop := queries s' = queries s.

(** The element objects that exist stay as they are; new ones may appear. *)
Definition extends (s s' : state) : Prop :=
  ∀ k, is_Some (heap s !! k) → heap s' !! k = heap s !! k.

(** The element objects that exist stay, with the parent they have. *)
Definition keeps_parents (s s' : state) : Prop :=
  ∀ k, is_Some (heap s !! k) →
       is_Some (heap s' !! k) ∧ parentNode (elem s' k) = parentNode (elem s k).




(** The page after [nq] resolved a selector that matches nothing; the
    collection is [0]. *)
Definition empty_collection : state :=
  final (@nq example_host (SelString ".none") empty_state).



(** The calls that read: [attr], [html] and [text] without a value, and the
    two serializers. *)
Definition is_read (o : op) : bool :=
  match o with
  | OpAttr _ JS.VUndefined | OpHtml JS.VUndefined | OpText JS.VUndefined
  | OpSerialize | OpSerializeArray => true
  | _ => false
  end.




(** A string of white space only: [trimStart] leaves nothing of it. *)
Definition blank (s : string) : bool := bool_decide (JS.trimStart s = "").

(** The first byte of the UTF-8 form of a white-space code point. *)
Definition first_byte (b : ascii) : Prop :=
  (nat_of_ascii b ≤ 32)%nat ∨ nat_of_ascii b ∈ [194; 225; 226; 227; 239].

(** U+00A0, U+FEFF and U+2028 as their bytes. *)
Definition no_break_space : string := String "194" (String "160" "").
Definition byte_order_mark : string :=
  String "239" (String "187" (String "191" "")).
Definition line_separator : string :=
  String "226" (String "128" (String "168" "")).

(** The UTF-8 form of a code point of the Basic Multilingual Plane. *)
Definition utf8 (cp : N) : string :=
  if (cp <? 0x80)%N then String (ascii_of_N cp) ""
  else if (cp <? 0x800)%N
  then String (ascii_of_N (0xC0 + cp / 0x40))
         (String (ascii_of_N (0x80 + cp mod 0x40)) "")
  else String (ascii_of_N (0xE0 + cp / 0x1000))
         (String (ascii_of_N (0x80 + (cp / 0x40) mod 0x40))
            (String (ascii_of_N (0x80 + cp mod 0x40)) "")).

(** The code points that [String.prototype.trim] removes: the [WhiteSpace]
    and [LineTerminator] productions of ECMAScript (tab, line feed, vertical
    tab, form feed, carriage return, space, no-break space, the space
    separators of Unicode, line and paragraph separator, and the byte order
    mark). *)
Definition white_space_code_points : list N :=
  [0x9; 0xA; 0xB; 0xC; 0xD; 0x20; 0xA0; 0x1680;
   0x2000; 0x2001; 0x2002; 0x2003; 0x2004; 0x2005; 0x2006; 0x2007; 0x2008;
   0x2009; 0x200A; 0x2028; 0x2029; 0x202F; 0x205F; 0x3000; 0xFEFF]%N.

(** A string made of white-space code points only. *)
Definition white_space_only (w : string) : Prop :=
  ∃ cps, Forall (λ c, c ∈ white_space_code_points) cps
         ∧ w = String.concat "" (utf8 <$> cps).

(** The two [div]s of [two_divs] with classes: the first has [a] and [b],
    the second has [b]. *)
Definition classy_divs : state :=
  update 1 (set_classList ["a"; "b"]) (update 2 (set_classList ["b"]) two_divs).

(** A page with a [div] [0] that holds a [p] [1] that holds a [span] [2],
    and the collection [0] holding the [div] and the [span]. *)
Definition nested : state :=
  State (heap (page [ set_childNodes [CElem 1] (new_element "div");
                      set_childNodes [CElem 2]
                        (set_parentNode (Some 0) (new_element "p"));
                      set_parentNode (Some 1) (new_element "span") ]))
        {[ 0 := [0; 2] ]} 0 [].

(** The page [nested] where the [p] has a listener for [click] already:
    the client function [8], not capturing. *)
Definition busy_nested : state :=
  update 1 (set_listeners [Listener "click" (UserFn 8) false false]) nested.

(** The surrogate code unit U+D800 on its own. *)
Definition lone_surrogate : string := String "237" (String "160" (String "128" "")).

(** A page with one text input [a] whose value is a lone surrogate, and
    the collection [0] holding it. *)
Definition surrogate_page : state :=
  State (heap (page [ Element "input" None [] [] [] [] "a" "text"
                        (Some lone_surrogate) false false false None None [] ]))
        {[ 0 := [0] ]} 0 [].

(** A page with an [object] element named [x] whose [type] is
    [select-multiple], and the collection [0] holding it. *)
Definition object_page : state :=
  State (heap (page [ Element "object" None [] [] [] [] "x" "select-multiple"
                        None false false false None None [] ]))
        {[ 0 := [0] ]} 0 [].

(** A page with a multiple [select] [0] named [s] whose options [1], [2]
    and [3] have the values [x], [y] and [z], the first and the last
    selected, and a text input [4] named [t]; the collection [0] holds the
    [select] and the input. *)
Definition select_page : state :=
  State (heap (page [ Element "select" None [CElem 1; CElem 2; CElem 3] [] [] []
                        "s" "select-multiple" (Some "x") false false false
                        (Some [1; 2; 3]) None [];
                      Element "option" (Some 0) [] [] [] [] "" "" (Some "x")
                        false false true None None [];
                      Element "option" (Some 0) [] [] [] [] "" "" (Some "y")
                        false false false None None [];
                      Element "option" (Some 0) [] [] [] [] "" "" (Some "z")
                        false false true None None [];
                      Element "input" None [] [] [] [] "t" "text" (Some "v")
                        false false false None None [] ]))
        {[ 0 := [0; 4] ]} 0 [].

(** A form [0] with one control, an [input] [1] whose name is [elements]. *)
Definition shadowed_form : state :=
  page [ Element "form" None [CElem 1] [] [] [] "" "" None
           false false false None (Some [1]) [("elements", [1])];
         control "text" "elements" "v" false ].

(** The specification's rendering of a sequence of pairs, written without
    the helpers of the code: a byte that is not an unreserved character is
    [%] and its two hexadecimal digits in upper case; a pair is the encoded
    name, [=], the encoded value; the pairs are joined with [&].  A value
    that is absent is rendered as [undefined]. *)
Definition unreserved_characters : list ascii :=
  list_ascii_of_string
    "ABCDEFGHIJKLMNOPQRSTUVWXYZabcdefghijklmnopqrstuvwxyz0123456789-_.!~*'()".

Definition hexadecimal (n : nat) : ascii :=
  default "0"%char (String.get n "0123456789ABCDEF").

Definition percent_encoded_byte (c : ascii) : string :=
  if bool_decide (c ∈ unreserved_characters) then String c ""
  else String "%" (String (hexadecimal (nat_of_ascii c / 16))
                     (String (hexadecimal (nat_of_ascii c mod 16)) "")).

Definition percent_encoded (x : string) : string :=
  String.concat "" (percent_encoded_byte <$> list_ascii_of_string x).

Definition rendered_pair (r : string * option string) : string :=
  percent_encoded r.1 +:+ "=" +:+ percent_encoded (default "undefined" r.2).

Definition query_string (pairs : list (string * option string)) : string :=
  String.concat "&" (rendered_pair <$> pairs).

(** The pairs whose strings have a UTF-8 form: neither the name nor the
    value holds a lone surrogate. *)
Definition pair_well_formed (r : string * option string) : bool :=
  negb (JS.has_lone_surrogate r.1)
  && negb (JS.has_lone_surrogate (default "undefined" r.2)).

Definition well_formed (pairs : list (string * option string)) : bool :=
  forallb pair_well_formed pairs.

(** The items of a list, up to the first error. *)
Fixpoint collect_err {X A} (item : X → exn + A) (xs : list X) : exn + list A :=
  match xs with
  | [] => inr []
  | x :: r =>
      match item x with
      | inr a =>
          match collect_err item r with
          | inr l => inr (a :: l)
          | inl e => inl e
          end
      | inl e => inl e
      end
  end.

(** The records of one element, as [serializeArray] pushes them. *)
Definition records_of (s : state) (n : node) : exn + list (string * option string) :=
  serialize_step s (λ name value, inr (name, value)) [] n.

(** * Properties *)

Example trim_ex : JS.trim "  <b> " = "<b>".
Proof. reflexivity. Qed.

Example encode_ex : JS.encodeURIComponent (Some "a b&c") = Some "a%20b%26c".
Proof. reflexivity. Qed.

Example encode_lone_surrogate_ex : JS.encodeURIComponent (Some lone_surrogate) = None.
Proof. reflexivity. Qed.

Example trim_nbsp_ex :
  JS.trim (String "194" (String "160" ("<b>" +:+ String "239" (String "187"
             (String "191" " "))))) = "<b>".
Proof. reflexivity. Qed.

Example percent_encoded_ex : percent_encoded "a b&c-é" = "a%20b%26c-%C3%A9".
Proof. reflexivity. Qed.

Example query_string_ex :
  query_string [("a", Some "x y"); ("b", None)] = "a=x%20y&b=undefined".
Proof. reflexivity. Qed.

Example tostring_ex : JS.ToString (JS.VNum (-42)) = "-42".
Proof. vm_compute. reflexivity. Qed.

Example isHTMLString_ex :
  isHTMLString (JS.VStr " <span>x</span> ") = true
  ∧ isHTMLString (JS.VStr "span") = false
  ∧ isHTMLString (JS.VNum 3) = false.
Proof. repeat split; reflexivity. Qed.

(** ** The monad *)

Lemma bind_normal {A B} (m : M A) (k : A → M B) s a s' :
  m s = Normal a s' → bind m k s = k a s'.
Proof. unfold bind. by intros ->. Qed.


Lemma for_of_nil {A} (body : A → M unit) s : for_of [] body s = Normal tt s.
Proof. reflexivity. Qed.

Lemma for_of_cons {A} (body : A → M unit) x l s :
  for_of (x :: l) body s = bind (body x) (λ _, for_of l body) s.
Proof. reflexivity. Qed.

(** A loop whose body only modifies the state is a fold. *)
Lemma for_of_modify {A} (g : A → state → state) l s :
  for_of l (λ x, modify (g x)) s = Normal tt (foldl (λ s x, g x s) s l).
Proof.
  revert s. induction l as [|x l IH]; intros s; [done|].
  rewrite for_of_cons. unfold bind, modify at 1. apply IH.
Qed.

Lemma this_nodes_eq this s nodes :
  queries s !! this = Some nodes → this_nodes this s = Normal nodes s.
Proof. unfold this_nodes. by intros ->. Qed.

(** ** Resolution *)

(** An element object that is neither a [select] nor a [form] has no
    [length], so [Query] takes the [Array.from] branch and gets nothing. *)
Lemma Query_element_without_length (s : state) (n : node) :
  tagName (elem s n) ≠ "SELECT" → tagName (elem s n) ≠ "FORM" →
  ∃ q s', Query (ALElement n) s = Normal q s' ∧ queries s' !! q = Some [].
Proof.
  intros Hsel Hform. unfold Query, length_of, Array_from, indexed.
  rewrite (bool_decide_eq_false_2 _ Hsel), (bool_decide_eq_false_2 _ Hform). simpl.
  eexists _, _. split; [reflexivity|]. simpl. by rewrite lookup_insert_eq.
Qed.

(** C2, at the failing input: [nq(div)] for a [div] element of the page
    builds a collection with no element, where the claim expects the
    collection to hold exactly the [div]. *)
Theorem nq_single_element_is_empty `{Host} :
  match nq (SelElement 0) detached_div with
  | Normal (Some q) s' => queries s' !! q = Some [] ∧ queries s' !! q ≠ Some [0]
  | _ => False
  end.
Proof. vm_compute. split; [reflexivity | discriminate]. Qed.

(** ** Serialization *)

Lemma collect_err_app {X A} (item : X → exn + A) (l1 l2 : list X) :
  collect_err item (l1 ++ l2)
  = match collect_err item l1 with
    | inr a =>
        match collect_err item l2 with
        | inr b => inr (a ++ b)
        | inl e => inl e
        end
    | inl e => inl e
    end.
Proof.
  induction l1 as [|x l1 IH]; simpl.
  { by destruct (collect_err item l2). }
  destruct (item x) as [e|a]; [done|]. rewrite IH.
  destruct (collect_err item l1) as [e|l]; [done|].
  by destruct (collect_err item l2).
Qed.

Lemma collect_err_fmap {X Y A} (f : X → Y) (item : Y → exn + A) (xs : list X) :
  collect_err item (f <$> xs) = collect_err (λ x, item (f x)) xs.
Proof.
  induction xs as [|x xs IH]; [done|].
  rewrite fmap_cons. cbn [collect_err].
  destruct (item (f x)); [done|]. by rewrite IH.
Qed.

Lemma collect_err_inr {X A} (f : X → A) (xs : list X) :
  collect_err (λ x, inr (f x)) xs = inr (f <$> xs).
Proof.
  induction xs as [|x xs IH]; [done|].
  rewrite fmap_cons. cbn [collect_err]. by rewrite IH.
Qed.

(** A loop that pushes an item for the elements it keeps. *)
Lemma fold_err_push {X A} (item : X → exn + A) (keep : X → bool) (acc : list A)
    (xs : list X) :
  fold_err (λ acc x, if keep x then push_err acc (item x) else inr acc) acc xs
  = match collect_err item (filter (λ x, keep x = true) xs) with
    | inr l => inr (acc ++ l)
    | inl e => inl e
    end.
Proof.
  revert acc. induction xs as [|x xs IH]; intros acc; simpl.
  { by rewrite app_nil_r. }
  destruct (keep x) eqn:Hx.
  - rewrite filter_cons_True by done. simpl.
    destruct (item x) as [e|a]; simpl; [done|]. rewrite IH.
    destruct (collect_err item _); [done|]. by rewrite <- app_assoc.
  - rewrite filter_cons_False by (by rewrite Hx). apply IH.
Qed.

(** What a turn pushes is what [serializeArray] pushes in that turn, each
    record made into an item, up to the first error. *)
Lemma serialize_step_records {A} (s : state)
    (item : string → option string → exn + A) (acc : list A) (n : node) :
  serialize_step s item acc n
  = match records_of s n with
    | inr recs =>
        match collect_err (λ r, item r.1 r.2) recs with
        | inr l => inr (acc ++ l)
        | inl e => inl e
        end
    | inl e => inl e
    end.
Proof.
  unfold records_of, serialize_step.
  destruct (eligible (elem s n)); [|simpl; by rewrite app_nil_r].
  destruct (bool_decide (el_type (elem s n) = "select-multiple")).
  - destruct (el_options (elem s n)) as [os|]; [|done].
    rewrite (fold_err_push (λ o, item (el_name (elem s n)) (el_value (elem s o)))
               (λ o, selected (elem s o))).
    rewrite (fold_err_push (λ o, inr (el_name (elem s n), el_value (elem s o)))
               (λ o, selected (elem s o))).
    rewrite (collect_err_inr (λ o, (el_name (elem s n), el_value (elem s o)))).
    cbv beta iota. by rewrite app_nil_l, collect_err_fmap.
  - destruct (unchecked_or_checked (elem s n)); simpl; [|by rewrite app_nil_r].
    by destruct (item (el_name (elem s n)) (el_value (elem s n))).
Qed.

(** The loop, element by element. *)
Lemma serialize_loop_cons {A} (s : state) (item : string → option string → exn + A)
    (n : node) (nodes : list node) :
  serialize_loop s item (n :: nodes)
  = match serialize_step s item [] n with
    | inr l =>
        match serialize_loop s item nodes with
        | inr l' => inr (l ++ l')
        | inl e => inl e
        end
    | inl e => inl e
    end.
Proof.
  unfold serialize_loop. simpl.
  destruct (serialize_step s item [] n) as [e|l]; [done|].
  assert (∀ acc,
    fold_err (serialize_step s item) acc nodes
    = match fold_err (serialize_step s item) [] nodes with
      | inr l' => inr (acc ++ l')
      | inl e => inl e
      end) as Hgen; [|apply Hgen].
  induction nodes as [|m nodes IH]; intros acc; simpl; [by rewrite app_nil_r|].
  rewrite (serialize_step_records s item acc m).
  rewrite (serialize_step_records s item [] m).
  destruct (records_of s m) as [e|recs]; [done|].
  destruct (collect_err _ recs) as [e|lm]; [done|]. simpl.
  rewrite (IH (acc ++ lm)), (IH lm).
  destruct (fold_err (serialize_step s item) [] nodes); [done|].
  by rewrite app_assoc.
Qed.

(** Where [serializeArray] gets its records, another loop gets the items
    of these records, up to the first error; where it throws, so does the
    other loop. *)
Lemma serialize_loop_records {A} (s : state)
    (item : string → option string → exn + A) (nodes : list node) :
  match serialize_loop s (λ name value, inr (name, value)) nodes with
  | inr recs => serialize_loop s item nodes = collect_err (λ r, item r.1 r.2) recs
  | inl e => ∃ e', serialize_loop s item nodes = inl e'
  end.
Proof.
  induction nodes as [|n nodes IH]; [done|].
  rewrite !serialize_loop_cons.
  rewrite (serialize_step_records s item [] n).
  fold (records_of s n).
  destruct (records_of s n) as [e|recs]; [by exists e|].
  destruct (serialize_loop s (λ name value, inr (name, value)) nodes)
    as [e|recs'].
  - destruct IH as [e' ->].
    destruct (collect_err _ recs); [by eexists|]. by exists e'.
  - rewrite IH, collect_err_app. simpl.
    destruct (collect_err _ recs) as [e|l]; [done|].
    by destruct (collect_err _ recs').
Qed.

(** Every record a turn gives carries the name of the element, which passed
    the eligibility test. *)
Lemma records_of_eligible (s : state) n l r :
  records_of s n = inr l →
  r ∈ l →
  eligible (elem s n) = true ∧ r.1 = el_name (elem s n).
Proof.
  unfold records_of, serialize_step.
  destruct (eligible (elem s n)); [|by intros [= <-] ?%elem_of_nil].
  destruct (bool_decide (el_type (elem s n) = "select-multiple")).
  - destruct (el_options (elem s n)) as [os|]; [|done].
    rewrite (fold_err_push (λ o, inr (el_name (elem s n), el_value (elem s o)))
               (λ o, selected (elem s o))).
    rewrite (collect_err_inr (λ o, (el_name (elem s n), el_value (elem s o)))).
    intros [= <-] (o & -> & _)%list_elem_of_fmap. done.
  - destruct (unchecked_or_checked (elem s n)); simpl.
    + intros [= <-] Hr. apply list_elem_of_singleton in Hr as ->. done.
    + by intros [= <-] ?%elem_of_nil.
Qed.

Lemma serialize_loop_eligible (s : state) (nodes : list node) l r :
  serialize_loop s (λ name value, inr (name, value)) nodes = inr l →
  r ∈ l →
  ∃ n, n ∈ nodes ∧ eligible (elem s n) = true ∧ r.1 = el_name (elem s n).
Proof.
  revert l. induction nodes as [|n nodes IH]; intros l.
  { intros [= <-]. by intros ?%elem_of_nil. }
  rewrite serialize_loop_cons. fold (records_of s n).
  destruct (records_of s n) as [e|ln] eqn:Hn; [done|].
  destruct (serialize_loop s _ nodes) as [e|l'] eqn:Hnodes; [done|].
  intros [= <-] [Hr|Hr]%elem_of_app.
  - destruct (records_of_eligible s n ln r Hn Hr). exists n.
    split_and!; [by left|done..].
  - destruct (IH l' eq_refl Hr) as (m & ? & ? & ?). exists m.
    split_and!; [by right|done..].
Qed.

(** The only error of [serializeArray] is the [TypeError] of an element
    without [options]. *)
Lemma serialize_loop_error (s : state) (nodes : list node) e :
  serialize_loop s (λ name value, inr (name, value)) nodes = inl e → e = TypeError.
Proof.
  induction nodes as [|n nodes IH]; [done|].
  rewrite serialize_loop_cons.
  destruct (serialize_step s _ [] n) as [e'|ln] eqn:Hn.
  - intros [= <-]. revert Hn. unfold serialize_step.
    destruct (eligible (elem s n)); [|done].
    destruct (bool_decide (el_type (elem s n) = "select-multiple")).
    + destruct (el_options (elem s n)) as [os|]; [|by intros [= <-]].
      rewrite (fold_err_push (λ o, inr (el_name (elem s n), el_value (elem s o)))
                 (λ o, selected (elem s o))).
      by rewrite (collect_err_inr (λ o, (el_name (elem s n), el_value (elem s o)))).
    + by destruct (unchecked_or_checked (elem s n)).
  - destruct (serialize_loop s _ nodes) as [e'|l']; [|done].
    intros [= <-]. by apply IH.
Qed.

Lemma eligible_spec (e : element) :
  eligible e = true ↔
  el_name e ≠ "" ∧ disabled e = false
  ∧ el_type e ∉ ["file"; "reset"; "submit"; "button"].
Proof.
  unfold eligible. rewrite !andb_true_iff, !negb_true_iff.
  rewrite !bool_decide_eq_false. tauto.
Qed.

(** C3: on the form of the example, whose controls are a text input
    [a=hello], an unchecked checkbox [b] and a checked radio [c=yes],
    [serializeArray] returns the records [a=hello] and [c=yes] in that
    order; and for every collection, each record it returns carries the name
    of an element of the collection whose [name] is not empty, that is not
    disabled, and whose type is none of [file], [reset], [submit],
    [button]. *)
Theorem serializeArray_example_and_eligibility `{Host} :
  (∃ q s', nq (SelElement 0) form_page = Normal (Some q) s'
     ∧ queries s' !! q = Some [1; 2; 3]
     ∧ serializeArray q s'
       = Normal (RRecords [("a", Some "hello"); ("c", Some "yes")]) s')
  ∧ (∀ (s : state) (this : qref) (nodes : list node) recs s' r,
       queries s !! this = Some nodes →
       serializeArray this s = Normal (RRecords recs) s' →
       r ∈ recs →
       ∃ n, n ∈ nodes ∧ r.1 = el_name (elem s n)
            ∧ el_name (elem s n) ≠ "" ∧ disabled (elem s n) = false
            ∧ el_type (elem s n) ∉ ["file"; "reset"; "submit"; "button"]).
Proof.
  split.
  - exists 0, (final (nq (SelElement 0) form_page)). split_and!; by vm_compute.
  - intros s this nodes recs s' r Hq Hrun Hr.
    unfold serializeArray in Hrun.
    rewrite (bind_normal _ _ _ _ _ (this_nodes_eq _ _ _ Hq)) in Hrun.
    unfold bind, get in Hrun.
    destruct (serialize_loop s _ nodes) as [e|l] eqn:Hloop; [done|].
    unfold ret in Hrun. injection Hrun as Hl Hs. subst l s'.
    destruct (serialize_loop_eligible s nodes recs r Hloop Hr)
      as (n & Hn & Hel & Hname).
    apply eligible_spec in Hel as (? & ? & ?). by exists n.
Qed.

(** The helpers of the code against the specification's rendering. *)
Lemma join_concat (sep : string) (l : list string) :
  JS.join sep l = String.concat sep l.
Proof.
  induction l as [|x [|y l] IH]; [done..|]. simpl in *. by rewrite IH.
Qed.

Lemma encode_byte (c : ascii) :
  (if JS.is_unreserved c then String c "" else JS.percent c)
  = percent_encoded_byte c.
Proof. destruct c as [[] [] [] [] [] [] [] []]; vm_compute; reflexivity. Qed.

Lemma string_app_empty (x : string) : x +:+ "" = x.
Proof.
  induction x as [|c x IH]; [done|].
  change (String c (x +:+ "") = String c x). by rewrite IH.
Qed.

Lemma concat_empty_cons (y : string) (l : list string) :
  String.concat "" (y :: l) = y +:+ String.concat "" l.
Proof. destruct l; [symmetry; apply string_app_empty | done]. Qed.

Lemma encode_string_percent_encoded (x : string) :
  JS.encode_string x = percent_encoded x.
Proof.
  unfold percent_encoded. induction x as [|c x IH]; [done|].
  cbn [JS.encode_string list_ascii_of_string].
  rewrite fmap_cons, concat_empty_cons, encode_byte. by rewrite IH.
Qed.

Lemma encoded_pair_rendered (r : string * option string) :
  encoded_pair r.1 r.2
  = if pair_well_formed r then inr (rendered_pair r) else inl URIError.
Proof.
  unfold encoded_pair, JS.encodeURIComponent, pair_well_formed, rendered_pair.
  simpl.
  destruct (JS.has_lone_surrogate r.1); [done|].
  destruct (JS.has_lone_surrogate (default "undefined" r.2)); [done|].
  simpl. by rewrite !encode_string_percent_encoded.
Qed.

Lemma collect_encoded_pairs (recs : list (string * option string)) :
  collect_err (λ r, encoded_pair r.1 r.2) recs
  = if well_formed recs then inr (rendered_pair <$> recs) else inl URIError.
Proof.
  induction recs as [|r recs IH]; [done|].
  cbn [collect_err well_formed forallb]. rewrite encoded_pair_rendered.
  destruct (pair_well_formed r); [|done]. rewrite IH.
  fold (well_formed recs). by destruct (well_formed recs).
Qed.

Lemma ascii_of_byte (a : ascii) (k : nat) :
  nat_of_ascii a = k → a = ascii_of_nat k.
Proof. intros <-. by rewrite ascii_nat_embedding. Qed.

(** A string has a lone surrogate when the byte [ED] stands somewhere in it
    before a byte from [A0] to [BF]. *)
Lemma has_lone_surrogate_spec (x : string) :
  JS.has_lone_surrogate x = true
  ↔ ∃ p b r, x = p +:+ String "237" (String b r)
             ∧ (160 ≤ nat_of_ascii b)%nat ∧ (nat_of_ascii b ≤ 191)%nat.
Proof.
  split.
  - induction x as [|a x IH]; [done|]. destruct x as [|b r]; [done|].
    cbn [JS.has_lone_surrogate].
    intros [Hhere|Hlater]%orb_true_iff.
    + apply andb_true_iff in Hhere as [Hhere Hhi].
      apply andb_true_iff in Hhere as [Ha Hlo].
      apply Nat.eqb_eq, ascii_of_byte in Ha. subst a.
      apply Nat.leb_le in Hlo, Hhi. by exists "", b, r.
    + destruct (IH Hlater) as (p & b' & r' & Heq & Hb).
      exists (String a p), b', r'. split; [|done].
      by rewrite Heq.
  - intros (p & b & r & -> & Hlo & Hhi).
    induction p as [|a p IH].
    + change ("" +:+ ?y) with y. cbn [JS.has_lone_surrogate].
      apply orb_true_iff. left.
      apply andb_true_iff. split; [|by apply Nat.leb_le].
      apply andb_true_iff. split; [done|by apply Nat.leb_le].
    + change (String a p +:+ ?y) with (String a (p +:+ y)).
      destruct (p +:+ String "237" (String b r)) as [|c t] eqn:Ht; [done|].
      cbn [JS.has_lone_surrogate]. apply orb_true_iff. by right.
Qed.

(** What [serialize] does where [serializeArray] returns and where it
    throws. *)
Lemma serialize_of_records (s : state) (this : qref) :
  match serializeArray this s with
  | Normal (RRecords recs) s' =>
      s' = s
      ∧ serialize this s
        = (if well_formed recs
           then Normal (RValue (Some (query_string recs))) s
           else Throw URIError s)
  | Normal _ _ => False
  | Throw e s' => e = TypeError ∧ s' = s ∧ ∃ e', serialize this s = Throw e' s
  end.
Proof.
  unfold serializeArray, serialize, bind, this_nodes, get.
  pose proof (serialize_loop_records s encoded_pair (default [] (queries s !! this)))
    as Hloop.
  destruct (serialize_loop s (λ name value, inr (name, value)) _) as [e|recs]
    eqn:Hrecs.
  - destruct Hloop as [e' ->]. unfold throw. split_and!; [|done|by exists e'].
    by eapply serialize_loop_error.
  - unfold ret. split; [done|]. rewrite Hloop, collect_encoded_pairs.
    destruct (well_formed recs); [|done].
    unfold query_string. by rewrite join_concat.
Qed.

(** C4, as the code has it: where [serializeArray] returns its records,
    [serialize] returns these pairs, each rendered as the percent-encoded
    name, [=], the percent-encoded value, joined with [&] in the same
    order, provided no name and no value holds a lone surrogate; with one
    that does, [serialize] throws the [URIError] of [encodeURIComponent]
    where [serializeArray] returns.  Where [serializeArray] throws (the
    [TypeError] of an element without [options]), [serialize] throws as
    well.  Neither changes the state. *)
Theorem serialize_agrees_with_serializeArray (s : state) (this : qref) :
  match serializeArray this s with
  | Normal (RRecords recs) s' =>
      s' = s
      ∧ serialize this s
        = (if well_formed recs
           then Normal (RValue (Some (query_string recs))) s
           else Throw URIError s)
  | Normal _ _ => False
  | Throw e s' => e = TypeError ∧ s' = s ∧ ∃ e', serialize this s = Throw e' s
  end.
Proof. apply serialize_of_records. Qed.

(** The claim as stated fails on a text input whose value is a lone
    surrogate: [serializeArray] returns its record and [serialize] throws
    a [URIError], so it returns no string at all. *)
Lemma serialize_lone_surrogate_counterexample :
  serializeArray 0 surrogate_page
  = Normal (RRecords [("a", Some lone_surrogate)]) surrogate_page
  ∧ serialize 0 surrogate_page = Throw URIError surrogate_page
  ∧ ¬ ∃ v s', serialize 0 surrogate_page = Normal v s'.
Proof.
  split_and!; [by vm_compute..|].
  intros (v & s' & Hv). by vm_compute in Hv.
Qed.

Example serialize_form_example `{Host} :
  ∃ q s', nq (SelElement 0) form_page = Normal (Some q) s'
    ∧ serialize q s' = Normal (RValue (Some "a=hello&c=yes")) s'.
Proof. exists 0, (final (nq (SelElement 0) form_page)). split; by vm_compute. Qed.

(** ** The heap *)

Lemma heap_update n f s : heap (update n f s) = alter f n (heap s).
Proof. reflexivity. Qed.

Lemma elem_update_eq n f s :
  is_Some (heap s !! n) → elem (update n f s) n = f (elem s n).
Proof.
  intros [e He]. unfold elem. rewrite heap_update, lookup_alter_eq, He. done.
Qed.

Lemma elem_update_ne n m f s : n ≠ m → elem (update n f s) m = elem s m.
Proof.
  intros Hne. unfold elem. by rewrite heap_update, lookup_alter_ne.
Qed.

Lemma is_Some_update n m f s :
  is_Some (heap (update n f s) !! m) ↔ is_Some (heap s !! m).
Proof.
  rewrite heap_update. destruct (decide (n = m)) as [->|Hne].
  - rewrite lookup_alter_eq. by rewrite fmap_is_Some.
  - by rewrite lookup_alter_ne.
Qed.

(** The same idempotent change made on every element of a list. *)
Lemma heap_update_all (f : element → element) (nodes : list node) s k :
  (∀ e, f (f e) = f e) →
  heap (foldl (λ s n, update n f s) s nodes) !! k
  = if decide (k ∈ nodes) then f <$> heap s !! k else heap s !! k.
Proof.
  intros Hf. revert s. induction nodes as [|n nodes IH]; intros s; cbn [foldl].
  { destruct (decide (k ∈ [])) as [Hk|]; [|done]. by apply elem_of_nil in Hk. }
  rewrite IH, heap_update. destruct (decide (n = k)) as [->|Hne].
  - rewrite lookup_alter_eq.
    destruct (decide (k ∈ k :: nodes)) as [_|Hk]; [|by destruct Hk; left].
    destruct (decide (k ∈ nodes)); [|done]. rewrite <- option_fmap_compose.
    apply option_fmap_ext. intros x. apply Hf.
  - rewrite lookup_alter_ne by done.
    destruct (decide (k ∈ nodes)), (decide (k ∈ n :: nodes)) as [Hk|Hk];
      try done.
    + destruct Hk. by right.
    + apply elem_of_cons in Hk as [->|?]; done.
Qed.


Lemma frame_update_all (f : element → element) (nodes : list node) s :
  let s' := foldl (λ s n, update n f s) s nodes in
  queries s' = queries s ∧ trace s' = trace s ∧ next_closure s' = next_closure s.
Proof.
  revert s. induction nodes as [|n nodes IH]; intros s; simpl; [done|].
  destruct (IH (update n f s)) as (-> & -> & ->). done.
Qed.

(** ** Attributes *)




(** Read mode of [attr]: the attribute of the first element, or null. *)
Lemma attr_read (s : state) (this : qref) name :
  attr this name JS.VUndefined s
  = Normal (RValue match default [] (queries s !! this) with
                   | n0 :: _ => getAttribute s n0 name
                   | [] => None
                   end) s.
Proof. reflexivity. Qed.





(** ** Relations that computations maintain *)

Section Maintains.
Context (R : state → state → Prop) `{!Reflexive R, !Transitive R}.

Lemma maintains_ret {A} (a : A) : maintains R (ret a).
Proof. intros s. simpl. reflexivity. Qed.

Lemma maintains_throw {A} e : maintains R (@throw A e).
Proof. intros s. simpl. reflexivity. Qed.

Lemma maintains_get : maintains R get.
Proof. intros s. simpl. reflexivity. Qed.

Lemma maintains_modify f : (∀ s, R s (f s)) → maintains R (modify f).
Proof. intros Hf s. apply Hf. Qed.

Lemma maintains_bind {A B} (m : M A) (k : A → M B) :
  maintains R m → (∀ a, maintains R (k a)) → maintains R (bind m k).
Proof.
  intros Hm Hk s. unfold bind. specialize (Hm s).
  destruct (m s) as [a s'|e s']; simpl in *; [|done].
  etrans; [done|]. apply Hk.
Qed.

Lemma maintains_for_of {A} (l : list A) (body : A → M unit) :
  (∀ x, maintains R (body x)) → maintains R (for_of l body).
Proof.
  intros Hbody. induction l as [|x l IH]; simpl.
  - apply maintains_ret.
  - apply maintains_bind; [apply Hbody | intros _; apply IH].
Qed.

Lemma maintains_report (m : M unit) : maintains R m → maintains R (report m).
Proof. intros Hm s. apply Hm. Qed.

End Maintains.

Global Instance same_queries_refl : Reflexive same_queries.
Proof. by intros s. Qed.

Global Instance same_queries_trans : Transitive same_queries.
Proof. unfold same_queries. intros s1 s2 s3 H12 H23. congruence. Qed.

(** ** Allocation *)

Lemma fresh_node_None s : heap s !! fresh_node s = None.
Proof. apply not_elem_of_dom. unfold fresh_node. apply is_fresh. Qed.

Lemma tree_ind' (P : tree → Prop) :
  (∀ x, P (TText x)) →
  (∀ tag attrs kids, Forall P kids → P (TElem tag attrs kids)) →
  ∀ t, P t.
Proof.
  intros Ht He. fix IH 1. intros [x|tag attrs kids]; [apply Ht|].
  apply He. induction kids as [|t kids IHk]; constructor; [apply IH | apply IHk].
Qed.

(** The loop inside [alloc_tree] is [alloc_trees]. *)
Lemma alloc_tree_elem p tag attrs kids s :
  alloc_tree p (TElem tag attrs kids) s
  = let n := fresh_node s in
    let e := set_attributes attrs (set_parentNode (Some p) (new_element tag)) in
    let '(cs, s2) := alloc_trees n kids (set_heap (<[n := e]> (heap s)) s) in
    (CElem n, update n (set_childNodes cs) s2).
Proof.
  simpl. generalize (fresh_node s) as n. intros n.
  generalize (set_heap (<[n := set_attributes attrs
                                 (set_parentNode (Some p) (new_element tag))]>
                          (heap s)) s) as s1.
  intros s1.
  assert (∀ s1,
    (fix go (ts : list tree) (s0 : state) {struct ts} : list child * state :=
       match ts with
       | [] => ([], s0)
       | t :: ts' =>
           let '(c, s') := alloc_tree n t s0 in
           let '(cs, s'') := go ts' s' in (c :: cs, s'')
       end) kids s1 = alloc_trees n kids s1) as ->; [|done].
  induction kids as [|t kids IH]; intros s0; simpl; [done|].
  destruct (alloc_tree n t s0) as [c s']. by rewrite IH.
Qed.

(** Creating the nodes of a fragment leaves the collection objects, the
    trace and the existing element objects as they are. *)
Lemma alloc_tree_frame t : ∀ p s,
  let s' := (alloc_tree p t s).2 in
  queries s' = queries s ∧ trace s' = trace s
  ∧ next_closure s' = next_closure s ∧ extends s s'.
Proof.
  induction t as [x|tag attrs kids IH] using tree_ind'; intros p s.
  { simpl. split_and!; try done; by intros k _. }
  assert (∀ n s1, let s2 := (alloc_trees n kids s1).2 in
    queries s2 = queries s1 ∧ trace s2 = trace s1
    ∧ next_closure s2 = next_closure s1 ∧ extends s1 s2) as Hkids.
  { intros n. induction IH as [|t kids Ht _ IHk]; intros s1; simpl.
    { split_and!; try done; by intros k _. }
    specialize (Ht n s1). destruct (alloc_tree n t s1) as [c s']. simpl in Ht.
    specialize (IHk s'). destruct (alloc_trees n kids s') as [cs s'']. simpl in *.
    destruct Ht as (? & ? & ? & Hext1), IHk as (? & ? & ? & Hext2).
    split_and!; [congruence..|]. intros k Hk.
    rewrite Hext2; [by apply Hext1|]. by rewrite Hext1. }
  rewrite alloc_tree_elem. cbv zeta.
  specialize (Hkids (fresh_node s)
    (set_heap (<[fresh_node s := set_attributes attrs
                   (set_parentNode (Some p) (new_element tag))]> (heap s)) s)).
  destruct (alloc_trees _ _ _) as [cs s2].
  simpl in *. destruct Hkids as (? & ? & ? & Hext).
  split_and!; [done..|]. intros k Hk.
  assert (k ≠ fresh_node s) as Hne.
  { intros ->. rewrite fresh_node_None in Hk. by destruct Hk. }
  rewrite heap_update, lookup_alter_ne by done.
  rewrite Hext; simpl; rewrite lookup_insert_ne by done; done.
Qed.

Lemma alloc_trees_frame ts : ∀ p s,
  let s' := (alloc_trees p ts s).2 in
  queries s' = queries s ∧ trace s' = trace s
  ∧ next_closure s' = next_closure s ∧ extends s s'.
Proof.
  induction ts as [|t ts IH]; intros p s; simpl.
  { split_and!; try done; by intros k _. }
  pose proof (alloc_tree_frame t p s) as Ht.
  destruct (alloc_tree p t s) as [c s']. simpl in Ht.
  specialize (IH p s'). destruct (alloc_trees p ts s') as [cs s'']. simpl in *.
  destruct Ht as (? & ? & ? & Hext1), IH as (? & ? & ? & Hext2).
  split_and!; [congruence..|]. intros k Hk.
  rewrite Hext2; [by apply Hext1|]. by rewrite Hext1.
Qed.

(** ** Membership of a collection *)

Lemma same_queries_alloc_fragment p ts : maintains same_queries (alloc_fragment p ts).
Proof.
  intros s. unfold alloc_fragment.
  pose proof (alloc_trees_frame ts p s) as Hf.
  destruct (alloc_trees p ts s) as [cs s']. simpl in *. apply Hf.
Qed.

Lemma same_queries_orphans cs s : same_queries s (foldr orphan s cs).
Proof.
  induction cs as [|[m|x] cs IH]; simpl; [done| |done].
  unfold same_queries in *. by simpl.
Qed.

(** Resolve a goal [maintains same_queries m] by following the structure of
    [m]: every step either leaves the state alone or changes the heap, the
    closure counter or the trace. *)
Ltac keeps :=
  repeat first
    [ apply maintains_ret; [apply _..]
    | apply maintains_throw; [apply _..]
    | apply maintains_get; [apply _..]
    | apply same_queries_alloc_fragment
    | apply maintains_for_of; [apply _.. | intros ?]
    | apply maintains_bind; [apply _.. | | intros ?]
    | apply maintains_modify; [intros ?; first [reflexivity | apply same_queries_orphans]]
    | match goal with
      | |- maintains _ (report _) => apply maintains_report
      | |- maintains _ (match ?x with _ => _ end) => destruct x
      | |- maintains _ (let '(_, _) := ?x in _) => destruct x
      end ].

Section Membership.
Context `{Host} `{Client}.

Lemma same_queries_this_nodes this : maintains same_queries (this_nodes this).
Proof. by intros s. Qed.

Lemma same_queries_check_token {A} token (k : M A) :
  maintains same_queries k → maintains same_queries (check_token token k).
Proof. intros Hk. unfold check_token. keeps. done. Qed.

Lemma same_queries_setAttribute n name v :
  maintains same_queries (setAttribute n name v).
Proof. unfold setAttribute. keeps. Qed.

Lemma same_queries_createElement tag : maintains same_queries (createElement tag).
Proof. unfold createElement, alloc. keeps. Qed.

Lemma same_queries_create_with tag attrs :
  maintains same_queries (create_with tag attrs).
Proof.
  unfold create_with, createElement, alloc. keeps.
  apply same_queries_setAttribute.
Qed.

Lemma same_queries_insertAdjacentHTML n w markup :
  maintains same_queries (insertAdjacentHTML n w markup).
Proof. unfold insertAdjacentHTML. keeps. Qed.

Lemma same_queries_replace_children n ts :
  maintains same_queries (replace_children n ts).
Proof. unfold replace_children. keeps. Qed.

Lemma same_queries_off this event listener options :
  maintains same_queries (off this event listener options).
Proof.
  unfold off, removeEventListener. keeps.
Qed.

Lemma same_queries_on this event handler options :
  maintains same_queries (on this event handler options).
Proof.
  unfold on, addEventListener. keeps.
Qed.

(** No method assigns [nodes] or changes the array it holds. *)
Lemma same_queries_run (o : op) (this : qref) : maintains same_queries (run o this).
Proof.
  destruct o; simpl;
    unfold addClass, removeClass, toggleClass, after, append, attr, before,
      html, text, one, prepend, remove, serialize, serializeArray,
      classList_add, classList_remove, classList_toggle, set_innerHTML,
      set_innerText, appendChild, insertBefore;
    try apply same_queries_off; try apply same_queries_on;
    keeps;
    first [ apply same_queries_this_nodes
          | apply same_queries_check_token; keeps
          | apply same_queries_setAttribute
          | apply same_queries_create_with
          | apply same_queries_createElement
          | apply same_queries_insertAdjacentHTML
          | apply same_queries_replace_children
          | apply same_queries_on
          | idtac ].
  all: try (unfold removeChild; intros s; case_bool_decide; reflexivity).
Qed.

(** Nor do the listeners when the host calls them, the closure of [one]
    among them. *)
Lemma same_queries_dispatchEvent target event_type bubbles :
  maintains same_queries (dispatchEvent target event_type bubbles).
Proof.
  unfold dispatchEvent, inner_invoke, invoke_listener, call_callback,
    oneTimeHandler, call_client.
  keeps; apply same_queries_off.
Qed.

End Membership.

Lemma elem_update_cases n f s k :
  elem (update n f s) k = elem s k ∨ elem (update n f s) k = f (elem s k).
Proof.
  destruct (decide (n = k)) as [->|Hne]; [|left; by apply elem_update_ne].
  destruct (heap s !! k) as [e|] eqn:He.
  - right. apply elem_update_eq. by rewrite He.
  - left. unfold elem. by rewrite heap_update, lookup_alter_eq, He.
Qed.

Lemma parentNode_is_Some s n p :
  parentNode (elem s n) = Some p → is_Some (heap s !! n).
Proof. unfold elem. destruct (heap s !! n); [eauto|done]. Qed.

(** One turn of [remove] detaches the element and attaches none. *)
Lemma remove_turn (n : node) (s : state) :
  ∃ s',
    (bind get (λ s0, match parentNode (elem s0 n) with
                     | Some p => removeChild p n
                     | None => ret tt
                     end)) s = Normal tt s'
    ∧ parentNode (elem s' n) = None
    ∧ ∀ k, parentNode (elem s k) = None → parentNode (elem s' k) = None.
Proof.
  unfold bind, get. destruct (parentNode (elem s n)) as [p|] eqn:Hp;
    [|by exists s].
  unfold removeChild. rewrite bool_decide_eq_true_2 by done.
  eexists. split; [reflexivity|]. split.
  - rewrite elem_update_eq; [done|].
    apply is_Some_update. by eapply parentNode_is_Some.
  - intros k Hk. rewrite elem_update_ne by congruence.
    by destruct (elem_update_cases p (λ e, set_childNodes
         (filter (λ c, c ≠ CElem n) (childNodes e)) e) s k) as [->| ->].
Qed.

Lemma remove_loop (nodes : list node) (s : state) :
  ∃ s',
    for_of nodes (λ node,
      bind get (λ s0, match parentNode (elem s0 node) with
                      | Some p => removeChild p node
                      | None => ret tt
                      end)) s = Normal tt s'
    ∧ (∀ k, k ∈ nodes → parentNode (elem s' k) = None)
    ∧ ∀ k, parentNode (elem s k) = None → parentNode (elem s' k) = None.
Proof.
  revert s. induction nodes as [|n nodes IH]; intros s.
  { exists s. split_and!; [done| |done]. by intros k ?%elem_of_nil. }
  destruct (remove_turn n s) as (s1 & Hrun1 & Hn & Hkeep1).
  destruct (IH s1) as (s' & Hrun & Hall & Hkeep).
  exists s'. split_and!.
  - rewrite for_of_cons. by erewrite bind_normal.
  - intros k [->|Hk]%elem_of_cons; [by apply Hkeep | by apply Hall].
  - intros k Hk. by apply Hkeep, Hkeep1.
Qed.

(** C9: no operation of the public surface changes the member list of any
    collection, whether it returns or throws, and neither does a listener,
    that of [one] included, when the host calls it in the dispatch of an
    event, whoever the client is; the operations act on the element objects
    only.  In particular [remove] detaches every element of the collection
    and the collection still holds them all. *)
Theorem membership_is_immutable `{Host} `{Client} (o : op) (this : qref)
    (s : state) :
  queries (final (run o this s)) = queries s
  ∧ (∀ target event_type bubbles,
       queries (final (dispatchEvent target event_type bubbles s)) = queries s)
  ∧ (∃ s', remove this s = Normal (RThis this) s'
           ∧ queries s' = queries s
           ∧ ∀ n, n ∈ default [] (queries s !! this) →
                  parentNode (elem s' n) = None).
Proof.
  split_and!.
  - apply same_queries_run.
  - intros target event_type bubbles. apply same_queries_dispatchEvent.
  - destruct (remove_loop (default [] (queries s !! this)) s)
      as (s' & Hrun & Hall & _).
    exists s'. split_and!; [|  |done].
    + unfold remove. erewrite bind_normal by reflexivity.
      by erewrite bind_normal by exact Hrun.
    + pose proof (same_queries_run OpRemove this s) as Hq.
      simpl in Hq. unfold remove in Hq.
      erewrite bind_normal in Hq by reflexivity.
      by erewrite bind_normal in Hq by exact Hrun.
Qed.

(** C6: on a collection with no element, [attr(name)] returns null,
    [addClass(name)] returns the collection, and every operation returns
    without raising: the mutators return the collection, [attr], [html] and
    [text] read null, [serialize] gives the empty string and
    [serializeArray] no record; the page and the collection stay as they
    are. *)
Theorem empty_collection_is_safe `{Host} (s : state) (this : qref) :
  queries s !! this = Some [] →
  (∀ name, attr this name JS.VUndefined s = Normal (RValue None) s)
  ∧ (∀ className, addClass this className s = Normal (RThis this) s)
  ∧ (∀ o, ∃ s',
       run o this s
       = Normal match o with
                | OpAttr _ JS.VUndefined | OpHtml JS.VUndefined
                | OpText JS.VUndefined => RValue None
                | OpSerialize => RValue (Some "")
                | OpSerializeArray => RRecords []
                | _ => RThis this
                end s'
       ∧ heap s' = heap s ∧ queries s' = queries s ∧ trace s' = trace s).
Proof.
  intros Hq. split_and!.
  - intros name. by rewrite attr_read, Hq.
  - intros className. unfold addClass.
    by rewrite (bind_normal _ _ _ _ _ (this_nodes_eq _ _ _ Hq)).
  - intros o.
    destruct o as [| | |? v| |v| | | | | | | | |v|]; try destruct v; simpl;
      unfold addClass, removeClass, toggleClass, after, append, attr, before,
        html, text, off, on, one, prepend, remove, serialize, serializeArray;
      unfold bind at 1; try (unfold get at 1; unfold bind at 1);
      try (unfold modify at 1; unfold on; unfold bind at 1);
      unfold this_nodes; simpl; rewrite Hq; simpl;
      eexists; (split; [reflexivity|done]).
Qed.

Lemma empty_collection_is_safe_witness :
  (∀ name, @attr 0 name JS.VUndefined empty_collection
           = Normal (RValue None) empty_collection)
  ∧ (∀ className, @addClass 0 className empty_collection
                  = Normal (RThis 0) empty_collection)
  ∧ (∀ o, ∃ s',
       @run example_host o 0 empty_collection
       = Normal match o with
                | OpAttr _ JS.VUndefined | OpHtml JS.VUndefined
                | OpText JS.VUndefined => RValue None
                | OpSerialize => RValue (Some "")
                | OpSerializeArray => RRecords []
                | _ => RThis 0
                end s'
       ∧ heap s' = heap empty_collection ∧ queries s' = queries empty_collection
       ∧ trace s' = trace empty_collection).
Proof.
  apply (@empty_collection_is_safe example_host empty_collection 0).
  reflexivity.
Defined.

(** ** Insertion next to an element without a parent *)

Global Instance keeps_parents_refl : Reflexive keeps_parents.
Proof. by intros s k Hk. Qed.

Global Instance keeps_parents_trans : Transitive keeps_parents.
Proof.
  intros s1 s2 s3 H12 H23 k Hk. destruct (H12 k Hk) as [Hk2 Hp2].
  destruct (H23 k Hk2) as [Hk3 Hp3]. split; [done|congruence].
Qed.





Section Detached.
Context `{Host}.






Lemma for_of_ret_tt {A} (l : list A) s : for_of l (λ _, ret tt) s = Normal tt s.
Proof. induction l as [|x l IH]; [done|]. by rewrite for_of_cons. Qed.



End Detached.



(** ** One-shot listeners *)







(** Listeners of other types are not the listener being removed. *)
Lemma filter_other_types (t : string) (cb : callback) (cap : bool)
    (old : list listener) :
  (∀ l, l ∈ old → l_type l ≠ t) →
  filter (λ l, ¬ same_listener t cb cap l) old = old.
Proof.
  intros Hold. induction old as [|l old IH]; [done|].
  rewrite filter_cons_True.
  - f_equal. apply IH. intros l' Hl'. apply Hold. by right.
  - intros [Ht _]. by apply (Hold l); [left|].
Qed.

Lemma filter_registered (t : string) (cb : callback) (cap once : bool)
    (old : list listener) :
  (∀ l, l ∈ old → l_type l ≠ t) →
  filter (λ l, ¬ same_listener t cb cap l) (old ++ [Listener t cb cap once]) = old.
Proof.
  intros Hold. rewrite filter_app, filter_other_types by done.
  rewrite filter_cons_False, filter_nil; [by rewrite app_nil_r|].
  intros Hn. by apply Hn.
Qed.


Lemma set_listeners_id e : set_listeners (el_listeners e) e = e.
Proof. by destruct e. Qed.


(** *** The states of a dispatch *)

Global Instance fewer_listeners_refl : Reflexive fewer_listeners.
Proof. by intros s. Qed.

Global Instance fewer_listeners_trans : Transitive fewer_listeners.
Proof.
  intros s1 s2 s3 (Hq1 & Hh1 & Hl1) (Hq2 & Hh2 & Hl2).
  split_and!; [congruence|naive_solver..].
Qed.











Section OneShot.
Context `{Client}.
Context (this : qref) (nodes : list node) (handler : nat) (L : listener).
Context (cid : nat) (options : listener_options).
Hypothesis HW : l_callback L = OneTimeHandler cid this handler options.
Hypothesis Hcap : l_capture L = capture_of (or_false options).














End OneShot.

(** *** The one-shot listener of a collection *)








Example one_shot_busy_nested_ex :
  let s1 := final (one 0 "click" 7 (OptBool true) busy_nested) in
  let s2 := final (@dispatchEvent example_client 2 "click" true s1) in
  let s3 := final (@dispatchEvent example_client 2 "click" true s2) in
  trace s2 = [Call 7 0 "click"; Call 8 1 "click"]
  ∧ trace s3 = [Call 7 0 "click"; Call 8 1 "click"; Call 8 1 "click"].
Proof. by vm_compute. Qed.


(** With a capturing one-shot listener on an element and on one of its
    ancestors, a click on the element calls the handler on the ancestor. *)
Example one_shot_nested_ex :
  let s1 := final (one 0 "click" 7 (OptBool true) nested) in
  let s2 := final (@dispatchEvent example_client 2 "click" true s1) in
  trace s2 = [Call 7 0 "click"].
Proof. by vm_compute. Qed.

(** A handler that throws is called at every dispatch: its listener stays
    on both elements. *)
Example one_shot_throwing_ex :
  let s1 := final (one 0 "click" 13 OptUndefined two_divs) in
  let s2 := final (@dispatchEvent example_client 1 "click" true s1) in
  let s3 := final (@dispatchEvent example_client 1 "click" true s2) in
  trace s3 = [Call 13 1 "click"; Call 13 1 "click"]
  ∧ el_listeners (elem s3 1) = el_listeners (elem s1 1)
  ∧ el_listeners (elem s3 2) = el_listeners (elem s1 2).
Proof. by vm_compute. Qed.

(** ** Appending *)



Section Append.
Context `{Host}.



End Append.




Lemma serializeArray_example_and_eligibility_witness :
  ∃ n, n ∈ [1; 2; 3] ∧ "c" = el_name (elem form_collection n)
       ∧ el_name (elem form_collection n) ≠ ""
       ∧ disabled (elem form_collection n) = false
       ∧ el_type (elem form_collection n) ∉ ["file"; "reset"; "submit"; "button"].
Proof.
  apply (proj2 (@serializeArray_example_and_eligibility example_host)
           form_collection 0 [1; 2; 3]
           [("a", Some "hello"); ("c", Some "yes")] form_collection
           ("c", Some "yes")).
  - reflexivity.
  - reflexivity.
  - right. left.
Defined.


(** * Further properties of the code *)

(** ** Resolution of lists, selectors and forms *)

(** For a host collection, the special case [nodes.length === 1] of
    [Query] gives the same array as [Array.from]. *)
Lemma Query_list (l : list node) (s : state) :
  Query (ALList l) s
  = Normal (fresh (dom (queries s)))
      (State (heap s) (<[fresh (dom (queries s)) := l]> (queries s))
         (next_closure s) (trace s)).
Proof.
  unfold Query, length_of, Array_from, indexed. simpl.
  case_bool_decide as Hlen; [|done].
  destruct l as [|x [|y l]]; simplify_eq/=. done.
Qed.

(** X1: [nq] on a [NodeList] or an [HTMLCollection] makes a new collection
    that holds exactly the members of the list, in order, whatever their
    number; the collections that exist and the page stay as they are. *)
Theorem nq_holds_the_list `{Host} (s : state) (l : list node) :
  ∃ q s',
    nq (SelNodeList l) s = Normal (Some q) s'
    ∧ nq (SelHTMLCollection l) s = Normal (Some q) s'
    ∧ queries s !! q = None
    ∧ queries s' !! q = Some l
    ∧ (∀ q', q' ≠ q → queries s' !! q' = queries s !! q')
    ∧ heap s' = heap s ∧ trace s' = trace s.
Proof.
  eexists _, _. split_and!.
  - unfold nq. erewrite bind_normal by apply Query_list. reflexivity.
  - unfold nq. erewrite bind_normal by apply Query_list. reflexivity.
  - apply not_elem_of_dom, is_fresh.
  - simpl. apply lookup_insert_eq.
  - intros q' Hq'. simpl. by rewrite lookup_insert_ne.
  - done.
  - done.
Qed.

Lemma nq_holds_the_list_witness :
  ∃ q s',
    @nq example_host (SelNodeList [2; 1; 2]) two_divs = Normal (Some q) s'
    ∧ @nq example_host (SelHTMLCollection [2; 1; 2]) two_divs = Normal (Some q) s'
    ∧ queries two_divs !! q = None
    ∧ queries s' !! q = Some [2; 1; 2]
    ∧ (∀ q', q' ≠ q → queries s' !! q' = queries two_divs !! q')
    ∧ heap s' = heap two_divs ∧ trace s' = trace two_divs.
Proof.
  apply (@nq_holds_the_list example_host two_divs [2; 1; 2]).
Defined.

(** X2: [nq] on a selector string that the host accepts makes a new
    collection that holds what the host's [querySelectorAll] finds for it,
    in that order and whatever the number; the collections that exist and
    the page stay as they are. *)
Theorem nq_selector_string `{Host} (s : state) (sel : string) (l : list node) :
  querySelectorAll sel (heap s) = Some l →
  ∃ q s',
    nq (SelString sel) s = Normal (Some q) s'
    ∧ queries s !! q = None
    ∧ queries s' !! q = Some l
    ∧ (∀ q', q' ≠ q → queries s' !! q' = queries s !! q')
    ∧ heap s' = heap s.
Proof.
  intros Hl. eexists _, _. split_and!.
  - unfold nq, nq_string, bind, get. rewrite Hl.
    rewrite Query_list. reflexivity.
  - apply not_elem_of_dom, is_fresh.
  - simpl. apply lookup_insert_eq.
  - intros q' Hq'. simpl. by rewrite lookup_insert_ne.
  - done.
Qed.

Lemma nq_selector_string_witness :
  ∃ q s',
    @nq tag_host (SelString "div") two_divs = Normal (Some q) s'
    ∧ queries two_divs !! q = None
    ∧ queries s' !! q = Some [1; 2]
    ∧ (∀ q', q' ≠ q → queries s' !! q' = queries two_divs !! q')
    ∧ heap s' = heap two_divs.
Proof.
  apply (@nq_selector_string tag_host two_divs "div" [1; 2]).
  by vm_compute.
Defined.

(** X3: [nq] on a [form] element that has no named property [tagName] or
    [elements] (no control, image or past name of that name) holds the
    controls of the form ([form.elements]), not the form. *)
Theorem nq_form_holds_its_controls `{Host} (s : state) (n : node)
    (controls : list node) :
  tagName (elem s n) = "FORM" →
  el_elements (elem s n) = Some controls →
  named (elem s n) "tagName" = [] →
  named (elem s n) "elements" = [] →
  ∃ q s', nq (SelElement n) s = Normal (Some q) s'
          ∧ queries s !! q = None
          ∧ queries s' !! q = Some controls
          ∧ heap s' = heap s.
Proof.
  intros Hform Hcontrols Htag Hels. eexists _, _. split_and!.
  - unfold nq. unfold bind at 1. unfold get at 1.
    rewrite (bool_decide_eq_true_2 _ Hform), (bool_decide_eq_true_2 _ Htag).
    rewrite Hels, Hcontrols. simpl.
    erewrite bind_normal by apply Query_list. reflexivity.
  - apply not_elem_of_dom, is_fresh.
  - simpl. apply lookup_insert_eq.
  - done.
Qed.

Lemma nq_form_holds_its_controls_witness :
  ∃ q s', @nq example_host (SelElement 0) form_page = Normal (Some q) s'
          ∧ queries form_page !! q = None
          ∧ queries s' !! q = Some [1; 2; 3]
          ∧ heap s' = heap form_page.
Proof.
  apply (@nq_form_holds_its_controls example_host form_page 0 [1; 2; 3]);
    reflexivity.
Defined.

(** X22: on a [form] with a control named [elements], that is neither a
    [select] nor a [form], [selector.elements] is this control and not the
    controls of the form: [nq] passes the control to [Query], and the
    collection is empty. *)
Theorem nq_form_with_a_control_named_elements `{Host} (s : state) (n c : node) :
  tagName (elem s n) = "FORM" →
  named (elem s n) "tagName" = [] →
  named (elem s n) "elements" = [c] →
  tagName (elem s c) ≠ "SELECT" →
  tagName (elem s c) ≠ "FORM" →
  ∃ q s', nq (SelElement n) s = Normal (Some q) s'
          ∧ queries s !! q = None
          ∧ queries s' !! q = Some []
          ∧ heap s' = heap s.
Proof.
  intros Hform Htag Hels Hsel Hnoform.
  eexists _, _. split_and!.
  - unfold nq. unfold bind at 1. unfold get at 1.
    rewrite (bool_decide_eq_true_2 _ Hform), (bool_decide_eq_true_2 _ Htag).
    rewrite Hels. simpl. unfold bind, Query, length_of, Array_from, indexed.
    rewrite (bool_decide_eq_false_2 _ Hsel), (bool_decide_eq_false_2 _ Hnoform).
    simpl. reflexivity.
  - apply not_elem_of_dom, is_fresh.
  - simpl. apply lookup_insert_eq.
  - done.
Qed.

Lemma nq_form_with_a_control_named_elements_witness :
  ∃ q s', @nq example_host (SelElement 0) shadowed_form = Normal (Some q) s'
          ∧ queries shadowed_form !! q = None
          ∧ queries s' !! q = Some []
          ∧ heap s' = heap shadowed_form.
Proof.
  apply (@nq_form_with_a_control_named_elements example_host shadowed_form 0 1);
    (reflexivity || discriminate).
Defined.

(** ** Class operations *)

Lemma state_ext (s s' : state) :
  heap s = heap s' → queries s = queries s' →
  next_closure s = next_closure s' → trace s = trace s' → s = s'.
Proof. destruct s, s'. simpl. by intros -> -> -> ->. Qed.

(** An idempotent change made twice on every element is made once. *)
Lemma update_all_twice (f : element → element) (nodes : list node) s :
  (∀ e, f (f e) = f e) →
  foldl (λ s n, update n f s) (foldl (λ s n, update n f s) s nodes) nodes
  = foldl (λ s n, update n f s) s nodes.
Proof.
  intros Hf. destruct (frame_update_all f nodes s) as (Hq & Ht & Hc).
  destruct (frame_update_all f nodes (foldl (λ s n, update n f s) s nodes))
    as (Hq' & Ht' & Hc').
  apply state_ext; [|done..].
  apply map_eq. intros k. rewrite !heap_update_all by done.
  destruct (decide (k ∈ nodes)); [|done].
  rewrite <- option_fmap_compose. apply option_fmap_ext. intros x. apply Hf.
Qed.









Example removeClass_classy_divs_ex :
  classList (elem (final (removeClass 0 "b" classy_divs)) 1) = ["a"]
  ∧ classList (elem (final (removeClass 0 "b" classy_divs)) 2) = [].
Proof. split; by vm_compute. Qed.





(** ** What the operations touch, return and raise *)




Lemma one_eq (s : state) (this : qref) event handler options :
  one this event handler options s
  = bind (for_of (default [] (queries s !! this)) (λ node,
            addEventListener node event
              (OneTimeHandler (next_closure s) this handler options)
              (or_false options)))
         (λ _, ret (RThis this))
         (State (heap s) (queries s) (S (next_closure s)) (trace s)).
Proof. reflexivity. Qed.




Lemma bind_ret_inv {A B} (m : M A) (r r' : B) s s' :
  bind m (λ _, ret r) s = Normal r' s' → r' = r.
Proof. unfold bind, ret. destruct (m s); congruence. Qed.

(** X9: every operation that changes something returns the collection it
    was called on, so that calls chain, and every read ([attr], [html],
    [text] without a value, [serialize], [serializeArray]) returns a value
    and leaves the page, the collections and the trace as they are. *)
Theorem mutators_chain_and_reads_do_not_write `{Host} (o : op) (this : qref)
    (s s' : state) (r : retval) :
  run o this s = Normal r s' →
  if is_read o then s' = s ∧ r ≠ RThis this else r = RThis this.
Proof.
  intros Hrun.
  destruct o as [| | |? v| |v| | | | | | | | |v|]; simpl in Hrun |- *;
    try (unfold serialize, serializeArray, bind, this_nodes, get in Hrun;
         destruct (serialize_loop _ _ _); unfold ret, throw in Hrun;
         by simplify_eq);
    try rewrite one_eq in Hrun;
    unfold addClass, removeClass, toggleClass, after, append, attr, before,
      html, text, off, on, prepend, remove, serialize, serializeArray in Hrun;
    try (unfold bind at 1 in Hrun; unfold this_nodes at 1 in Hrun);
    try destruct v; simpl in Hrun |- *;
    try (by apply bind_ret_inv in Hrun);
    unfold bind, get, ret, this_nodes in Hrun; by simplify_eq.
Qed.

Lemma mutators_chain_and_reads_do_not_write_witness :
  if is_read (OpAttr "id" JS.VUndefined)
  then two_divs = two_divs ∧ RValue None ≠ RThis 0
  else RValue None = RThis 0.
Proof.
  apply (@mutators_chain_and_reads_do_not_write example_host
           (OpAttr "id" JS.VUndefined) 0 two_divs two_divs (RValue None)).
  reflexivity.
Defined.








(** The records of one element, in closed form. *)
Lemma records_of_spec (s : state) (n : node) :
  records_of s n
  = let e := elem s n in
    if eligible e then
      if bool_decide (el_type e = "select-multiple") then
        match el_options e with
        | Some options =>
            inr ((λ o, (el_name e, el_value (elem s o)))
                   <$> filter (λ o, selected (elem s o) = true) options)
        | None => inl TypeError
        end
      else if unchecked_or_checked e then inr [(el_name e, el_value e)]
      else inr []
    else inr [].
Proof.
  unfold records_of, serialize_step. cbv zeta.
  destruct (eligible (elem s n)); [|done].
  destruct (bool_decide (el_type (elem s n) = "select-multiple")); [|done].
  destruct (el_options (elem s n)) as [os|]; [|done].
  rewrite (fold_err_push (λ o, inr (el_name (elem s n), el_value (elem s o)))
             (λ o, selected (elem s o))).
  by rewrite (collect_err_inr (λ o, (el_name (elem s n), el_value (elem s o)))).
Qed.




Example serializeArray_object_ex :
  serializeArray 0 object_page = Throw TypeError object_page
  ∧ serialize 0 object_page = Throw TypeError object_page.
Proof. split; by vm_compute. Qed.

(** ** Listeners *)




(** With a listener on an element and on one of its ancestors, an event
    that bubbles calls the handler on both, the target first; one that
    does not bubble calls it on the target only. *)
Example on_nested_ex :
  let s1 := final (on 0 "click" (UserFn 7) OptUndefined nested) in
  trace (final (@dispatchEvent example_client 2 "click" true s1))
  = [Call 7 2 "click"; Call 7 0 "click"]
  ∧ trace (final (@dispatchEvent example_client 2 "click" false s1))
    = [Call 7 2 "click"].
Proof. by vm_compute. Qed.


(** X12: registering the same handler twice with [on] is registering it
    once: the second call changes nothing. *)
Theorem on_twice_is_on_once (s : state) (this : qref) (event : string)
    (handler : callback) (options : listener_options) :
  ∃ s1, on this event handler options s = Normal (RThis this) s1
        ∧ on this event handler options s1 = Normal (RThis this) s1.
Proof.
  set (cap := capture_of (or_false options)).
  set (addL := λ e0 : element,
    if bool_decide (Exists (same_listener event handler cap) (el_listeners e0))
    then e0
    else set_listeners (el_listeners e0
           ++ [Listener event handler cap (once_of (or_false options))]) e0).
  assert (∀ e0, addL (addL e0) = addL e0) as HaddL.
  { intros e0. unfold addL.
    destruct (bool_decide (Exists (same_listener event handler cap)
                             (el_listeners e0))) eqn:Hex; [by rewrite Hex|].
    rewrite bool_decide_eq_true_2; [done|].
    simpl. apply Exists_app. right. by constructor. }
  assert (∀ s0, queries s0 = queries s →
    on this event handler options s0
    = Normal (RThis this)
        (foldl (λ s n, update n addL s) s0 (default [] (queries s !! this))))
    as Hon.
  { intros s0 Hq0. unfold on. unfold bind at 1. unfold this_nodes at 1.
    rewrite Hq0. unfold addEventListener.
    by erewrite bind_normal by apply for_of_modify. }
  eexists. split; [by apply Hon|].
  rewrite Hon.
  - by rewrite update_all_twice.
  - by destruct (frame_update_all addL (default [] (queries s !! this)) s)
      as (-> & _).
Qed.





(** ** Removal *)






(** ** Insertion *)

(** X15: with an input that is not a string, [append], [prepend],
    [before] and [after] do nothing and return the collection, whatever
    the collection holds. *)
Theorem insertion_ignores_other_inputs `{Host} (s : state) (this : qref)
    (input : JS.value) (attributes : option (list (string * JS.value))) :
  (∀ x, input ≠ JS.VStr x) →
  append this input attributes s = Normal (RThis this) s
  ∧ prepend this input attributes s = Normal (RThis this) s
  ∧ before this input attributes s = Normal (RThis this) s
  ∧ after this input attributes s = Normal (RThis this) s.
Proof.
  intros Hv.
  split_and!; [unfold append|unfold prepend|unfold before|unfold after];
    (erewrite bind_normal by reflexivity);
    (destruct input as [| | | |x]; [..|by destruct (Hv x)]); simpl;
    by rewrite (bind_normal _ _ _ _ _ (for_of_ret_tt _ _)).
Qed.

Lemma insertion_ignores_other_inputs_witness :
  @append example_host 0 (JS.VNum 3) None two_divs = Normal (RThis 0) two_divs
  ∧ @prepend example_host 0 (JS.VNum 3) None two_divs = Normal (RThis 0) two_divs
  ∧ @before example_host 0 (JS.VNum 3) None two_divs = Normal (RThis 0) two_divs
  ∧ @after example_host 0 (JS.VNum 3) None two_divs = Normal (RThis 0) two_divs.
Proof.
  apply (@insertion_ignores_other_inputs example_host two_divs 0 (JS.VNum 3) None).
  intros x. discriminate.
Defined.







(** ** Serialization, element by element *)

(** X17: where every element of the collection that passes the eligibility
    test and has the type [select-multiple] has [options], the records of
    [serializeArray] are, in the order of the collection, the records of
    each element on its own: none for an element that has no name, is
    disabled, or is a file, reset, submit or button control; one per
    selected option, in the order of the options, for a multiple select;
    none for a checkbox or radio that is not checked; and one record, name
    and value, for every other element. *)
Theorem serializeArray_by_element (s : state) (this : qref) (nodes : list node) :
  queries s !! this = Some nodes →
  (∀ n, n ∈ nodes → eligible (elem s n) = true →
        el_type (elem s n) = "select-multiple" →
        is_Some (el_options (elem s n))) →
  serializeArray this s
  = Normal (RRecords (concat ((λ n,
      let e := elem s n in
      if negb (bool_decide (el_name e = "")) && negb (disabled e)
         && negb (bool_decide (el_type e ∈ ["file"; "reset"; "submit"; "button"]))
      then
        if bool_decide (el_type e = "select-multiple")
        then (λ o, (el_name e, el_value (elem s o)))
             <$> filter (λ o, selected (elem s o) = true)
                   (default [] (el_options e))
        else if (bool_decide (el_type e = "checkbox")
                 || bool_decide (el_type e = "radio")) && negb (checked e)
             then []
             else [(el_name e, el_value e)]
      else []) <$> nodes))) s.
Proof.
  intros Hq Hopts. unfold serializeArray.
  rewrite (bind_normal _ _ _ _ _ (this_nodes_eq _ _ _ Hq)).
  unfold bind, get.
  assert (serialize_loop s (λ name value, inr (name, value)) nodes
    = inr (concat ((λ n,
        let e := elem s n in
        if negb (bool_decide (el_name e = "")) && negb (disabled e)
           && negb (bool_decide (el_type e ∈ ["file"; "reset"; "submit"; "button"]))
        then
          if bool_decide (el_type e = "select-multiple")
          then (λ o, (el_name e, el_value (elem s o)))
               <$> filter (λ o, selected (elem s o) = true)
                     (default [] (el_options e))
          else if (bool_decide (el_type e = "checkbox")
                   || bool_decide (el_type e = "radio")) && negb (checked e)
               then []
               else [(el_name e, el_value e)]
        else []) <$> nodes))) as ->; [|done].
  clear Hq. induction nodes as [|n nodes IH]; [done|].
  rewrite serialize_loop_cons. fold (records_of s n).
  rewrite IH by (intros m Hm; apply Hopts; by right).
  rewrite records_of_spec. cbv zeta. rewrite fmap_cons. cbn [concat].
  specialize (Hopts n (list_elem_of_here _ _)).
  unfold eligible, unchecked_or_checked in *.
  destruct (negb (bool_decide (el_name (elem s n) = "")) && negb (disabled (elem s n))
            && negb (bool_decide (el_type (elem s n)
                                  ∈ ["file"; "reset"; "submit"; "button"])));
    [|done].
  case_bool_decide as Htype.
  - destruct (Hopts eq_refl Htype) as [os ->]. done.
  - by destruct (bool_decide (el_type (elem s n) = "checkbox")),
       (bool_decide (el_type (elem s n) = "radio")), (checked (elem s n)).
Qed.

Lemma serializeArray_by_element_witness :
  serializeArray 0 select_page
  = Normal (RRecords [("s", Some "x"); ("s", Some "z"); ("t", Some "v")])
      select_page.
Proof.
  apply (serializeArray_by_element select_page 0 [0; 4]).
  - reflexivity.
  - intros n Hn _ Htype.
    apply elem_of_cons in Hn as [->|Hn]; [eexists; reflexivity|].
    apply list_elem_of_singleton in Hn as ->. discriminate Htype.
Defined.

(** ** Names the host rejects *)



(** Markup between no-break spaces goes the markup way: [append] inserts
    and returns the collection. *)
Example append_nbsp_markup_ex :
  ∃ s', @append example_host 0
          (JS.VStr (no_break_space +:+ "<b>x</b>" +:+ no_break_space)) None two_divs
        = Normal (RThis 0) s'.
Proof. eexists. by vm_compute. Qed.

(** ** The tag-name branch in general *)







Section TagName.
Context `{Host}.



End TagName.




(** ** Markup detection *)

Lemma string_app_cons (a : ascii) (s t : string) :
  String a s +:+ t = String a (s +:+ t).
Proof. reflexivity. Qed.

Lemma rev_app_app (y w acc : string) :
  String.rev_app (y +:+ w) acc = String.rev_app w (String.rev_app y acc).
Proof.
  revert acc. induction y as [|a y IH]; intros acc; [done|].
  rewrite string_app_cons. simpl. apply IH.
Qed.

Lemma rev_app_rev_app (x a b : string) :
  String.rev_app (String.rev_app x a) b = String.rev_app a (x +:+ b).
Proof.
  revert a b. induction x as [|c x IH]; intros a b; [done|].
  simpl. rewrite IH. by rewrite string_app_cons.
Qed.

(** The bytes of the white space: the first byte of a code point is not a
    later byte of another. *)
Ltac elems H :=
  repeat (apply elem_of_cons in H as [H|H]); [..|by apply elem_of_nil in H].

Ltac elem_of_list :=
  repeat first [apply list_elem_of_here | apply list_elem_of_further].

Lemma ws1_bytes a : JS.ws1 a = true → (nat_of_ascii a ≤ 32)%nat.
Proof. unfold JS.ws1. intros Ha%bool_decide_eq_true. elems Ha; lia. Qed.

Lemma ws2_bytes a b :
  JS.ws2 a b = true → nat_of_ascii a = 194 ∧ nat_of_ascii b = 160.
Proof. unfold JS.ws2. by intros ?%bool_decide_eq_true. Qed.

Lemma ws3_bytes a b c :
  JS.ws3 a b c = true →
  nat_of_ascii a ∈ [225; 226; 227; 239]
  ∧ nat_of_ascii b ∈ [154; 128; 129; 187]
  ∧ (128 ≤ nat_of_ascii c)%nat ∧ (nat_of_ascii c ≤ 191)%nat.
Proof.
  unfold JS.ws3. cbv zeta. intros Hb%bool_decide_eq_true.
  destruct Hb as [(-> & -> & ->)|[(-> & -> & Hc)|[(-> & -> & ->)|
    [(-> & -> & ->)|(-> & -> & ->)]]]];
    (split; [elem_of_list|split; [elem_of_list|try lia]]).
  destruct Hc as [?|Hc]; [lia|]. elems Hc; lia.
Qed.

(** The first byte of a string of white space. *)
Lemma blank_first (b : ascii) (w : string) :
  blank (String b w) = true → first_byte b.
Proof.
  unfold blank, JS.trimStart, first_byte.
  intros Hb%bool_decide_eq_true. simpl in Hb.
  destruct (JS.ws1 b) eqn:H1; [left; by apply ws1_bytes|].
  destruct w as [|c w]; [done|].
  destruct (JS.ws2 b c) eqn:H2.
  { apply ws2_bytes in H2 as [-> _]. right. elem_of_list. }
  destruct w as [|d w]; [done|].
  destruct (JS.ws3 b c d) eqn:H3; [|done].
  apply ws3_bytes in H3 as (Hb3 & _). right.
  elems Hb3; rewrite Hb3; elem_of_list.
Qed.

Lemma ws2_not_first a b : first_byte b → JS.ws2 a b = false.
Proof.
  intros Hb. destruct (JS.ws2 a b) eqn:H2; [|done].
  apply ws2_bytes in H2 as [_ H2].
  destruct Hb as [?|Hb]; [lia|]. elems Hb; lia.
Qed.

Lemma ws3_not_first_2 a b c : first_byte b → JS.ws3 a b c = false.
Proof.
  intros Hb. destruct (JS.ws3 a b c) eqn:H3; [|done].
  apply ws3_bytes in H3 as (_ & H3 & _).
  elems H3; (destruct Hb as [?|Hb]; [lia|elems Hb; lia]).
Qed.

Lemma ws3_not_first_3 a b c : first_byte c → JS.ws3 a b c = false.
Proof.
  intros Hc. destruct (JS.ws3 a b c) eqn:H3; [|done].
  apply ws3_bytes in H3 as (_ & _ & H3 & H3').
  destruct Hc as [?|Hc]; [lia|]. elems Hc; lia.
Qed.

Lemma strip_shorter w1 w2 w3 (y : string) :
  (String.length (JS.strip w1 w2 w3 y) ≤ String.length y)%nat.
Proof.
  assert (∀ n y, (String.length y ≤ n)%nat →
            (String.length (JS.strip w1 w2 w3 y) ≤ String.length y)%nat)
    as Hgen.
  { induction n as [|n IH]; intros x Hx.
    { destruct x; [done|simpl in Hx; lia]. }
    destruct x as [|a [|b [|c r]]]; simpl in *; [done|..].
    - destruct (w1 a); simpl; lia.
    - destruct (w1 a).
      { specialize (IH (String b "")). simpl in IH.
        etrans; [apply IH; lia|lia]. }
      destruct (w2 a b); simpl; lia.
    - destruct (w1 a).
      { specialize (IH (String b (String c r))). simpl in IH.
        etrans; [apply IH; lia|]. simpl. lia. }
      destruct (w2 a b).
      { specialize (IH (String c r)). simpl in IH.
        etrans; [apply IH; lia|]. simpl. lia. }
      destruct (w3 a b c); [|simpl; lia].
      etrans; [apply IH; lia|]. lia. }
  by apply (Hgen (String.length y)).
Qed.

(** Induction along [strip]: a string is empty, starts with a code point
    that is stripped, or stays as it is. *)
Lemma strip_ind (w1 : ascii → bool) (w2 : ascii → ascii → bool)
    (w3 : ascii → ascii → ascii → bool) (P : string → Prop) :
  P "" →
  (∀ a r, w1 a = true → P r → P (String a r)) →
  (∀ a b r, w1 a = false → w2 a b = true → P r → P (String a (String b r))) →
  (∀ a b c r, w1 a = false → w2 a b = false → w3 a b c = true → P r →
              P (String a (String b (String c r)))) →
  (∀ x, x ≠ "" → JS.strip w1 w2 w3 x = x → P x) →
  ∀ x, P x.
Proof.
  intros Hnil H1 H2 H3 Hstay.
  assert (∀ n x, (String.length x ≤ n)%nat → P x) as Hgen.
  { induction n as [|n IH]; intros x Hx.
    { destruct x; [done|simpl in Hx; lia]. }
    destruct x as [|a r]; [done|]. simpl in Hx.
    destruct (w1 a) eqn:Ha; [apply H1; [done|apply IH; lia]|].
    destruct r as [|b r].
    { apply Hstay; [done|]. simpl. by rewrite Ha. }
    simpl in Hx.
    destruct (w2 a b) eqn:Hb; [apply H2; [done..|apply IH; lia]|].
    destruct r as [|c r].
    { apply Hstay; [done|]. simpl. by rewrite Ha, Hb. }
    simpl in Hx.
    destruct (w3 a b c) eqn:Hc; [apply H3; [done..|apply IH; lia]|].
    apply Hstay; [done|]. simpl. by rewrite Ha, Hb, Hc. }
  intros x. by apply (Hgen (String.length x)).
Qed.

(** White space in front goes. *)
Lemma trimStart_blank_app (w y : string) :
  blank w = true → JS.trimStart (w +:+ y) = JS.trimStart y.
Proof.
  unfold blank, JS.trimStart. intros Hw%bool_decide_eq_true. revert Hw.
  induction w as [|a r Ha IH|a b r Ha Hb IH|a b c r Ha Hb Hc IH|x Hx Hstay]
    using (strip_ind JS.ws1 JS.ws2 JS.ws3).
  - done.
  - rewrite string_app_cons. simpl. rewrite Ha. apply IH.
  - rewrite !string_app_cons. simpl. rewrite Ha, Hb. apply IH.
  - rewrite !string_app_cons. simpl. rewrite Ha, Hb, Hc. apply IH.
  - intros Hw. congruence.
Qed.

(** White space at the end goes: at the front of the reversed string. *)
Lemma trimEnd_rev_blank (w acc : string) :
  blank w = true →
  JS.trimEnd_rev (String.rev_app w acc) = JS.trimEnd_rev acc.
Proof.
  unfold blank, JS.trimStart. intros Hw%bool_decide_eq_true. revert acc Hw.
  induction w as [|a r Ha IH|a b r Ha Hb IH|a b c r Ha Hb Hc IH|x Hx Hstay]
    using (strip_ind JS.ws1 JS.ws2 JS.ws3); intros acc.
  - done.
  - simpl. rewrite Ha. intros Hr. rewrite (IH _ Hr).
    unfold JS.trimEnd_rev. simpl. by rewrite Ha.
  - simpl. rewrite Ha, Hb. intros Hr. rewrite (IH _ Hr).
    unfold JS.trimEnd_rev. simpl.
    assert (JS.ws1 b = false) as ->.
    { destruct (JS.ws1 b) eqn:H1; [|done].
      apply ws1_bytes in H1. apply ws2_bytes in Hb as [_ Hb]. lia. }
    by rewrite Hb.
  - simpl. rewrite Ha, Hb, Hc. intros Hr. rewrite (IH _ Hr).
    unfold JS.trimEnd_rev. simpl.
    pose proof (ws3_bytes _ _ _ Hc) as (_ & Hb3 & Hc3 & _).
    assert (JS.ws1 c = false) as ->.
    { destruct (JS.ws1 c) eqn:H1; [|done]. apply ws1_bytes in H1. lia. }
    assert (JS.ws2 b c = false) as ->.
    { destruct (JS.ws2 b c) eqn:H2; [|done].
      apply ws2_bytes in H2 as [H2 _]. elems Hb3; lia. }
    by rewrite Hc.
  - intros Hw. congruence.
Qed.

(** White space behind a string stays behind what [trimStart] leaves of
    it, when it leaves something. *)
Lemma trimStart_app_blank (x w : string) :
  blank w = true →
  JS.trimStart (x +:+ w)
  = match JS.trimStart x with
    | "" => ""
    | t => t +:+ w
    end.
Proof.
  intros Hw. unfold JS.trimStart.
  induction x as [|a r Ha IH|a b r Ha Hb IH|a b c r Ha Hb Hc IH|x Hx Hstay]
    using (strip_ind JS.ws1 JS.ws2 JS.ws3).
  - simpl. unfold blank, JS.trimStart in Hw. by apply bool_decide_eq_true in Hw.
  - rewrite string_app_cons. simpl. rewrite Ha. apply IH.
  - rewrite !string_app_cons. simpl. rewrite Ha, Hb. apply IH.
  - rewrite !string_app_cons. simpl. rewrite Ha, Hb, Hc. apply IH.
  - rewrite Hstay. destruct x as [|a r]; [done|]. clear Hx.
    simpl in Hstay. rewrite string_app_cons. simpl.
    destruct (JS.ws1 a) eqn:Ha.
    { pose proof (strip_shorter JS.ws1 JS.ws2 JS.ws3 r) as Hlen.
      rewrite Hstay in Hlen. simpl in Hlen. lia. }
    destruct r as [|b r].
    { change ("" +:+ w) with w. destruct w as [|b w]; [done|].
      pose proof (blank_first b w Hw) as Hb.
      rewrite (ws2_not_first a b Hb).
      destruct w as [|c w]; [done|]. by rewrite (ws3_not_first_2 a b c Hb). }
    rewrite string_app_cons.
    destruct (JS.ws2 a b) eqn:Hb.
    { pose proof (strip_shorter JS.ws1 JS.ws2 JS.ws3 r) as Hlen.
      rewrite Hstay in Hlen. simpl in Hlen. lia. }
    destruct r as [|c r].
    { change ("" +:+ w) with w. destruct w as [|c w]; [done|].
      pose proof (blank_first c w Hw) as Hc.
      by rewrite (ws3_not_first_3 a b c Hc). }
    rewrite string_app_cons.
    destruct (JS.ws3 a b c) eqn:Hc; [|done].
    pose proof (strip_shorter JS.ws1 JS.ws2 JS.ws3 r) as Hlen.
    rewrite Hstay in Hlen. simpl in Hlen. lia.
Qed.

(** White space around a string goes when it is trimmed. *)
Lemma trim_blank_around (w1 w2 x : string) :
  blank w1 = true → blank w2 = true →
  JS.trim (w1 +:+ x +:+ w2) = JS.trim x.
Proof.
  intros H1 H2. unfold JS.trim.
  rewrite (trimStart_blank_app w1 (x +:+ w2) H1), (trimStart_app_blank x w2 H2).
  destruct (JS.trimStart x) as [|a t] eqn:Hx; [done|].
  unfold String.rev. by rewrite rev_app_app, (trimEnd_rev_blank w2 _ H2).
Qed.

(** A string that starts with a byte of no white space stays. *)
Lemma strip_stays w1 w2 w3 (a : ascii) (r : string) :
  w1 a = false → (∀ b, w2 a b = false) → (∀ b c, w3 a b c = false) →
  JS.strip w1 w2 w3 (String a r) = String a r.
Proof.
  intros H1 H2 H3. destruct r as [|b [|c r]]; simpl; by rewrite H1, ?H2, ?H3.
Qed.

(** A string in angle brackets is its own trimmed form. *)
Lemma trim_angle (x : string) :
  JS.trim ("<" +:+ x +:+ ">") = "<" +:+ x +:+ ">".
Proof.
  assert (∀ r, JS.trimStart (String "<" r) = String "<" r) as Hlt.
  { intros r. apply strip_stays; [done|..]; intros; apply bool_decide_eq_false_2.
    - by intros [? _].
    - cbv zeta. change (nat_of_ascii "<") with 60.
      by intros [(? & _)|[(? & _)|[(? & _)|[(? & _)|(? & _)]]]]. }
  assert (∀ r, JS.trimEnd_rev (String ">" r) = String ">" r) as Hgt.
  { intros r. apply strip_stays; [done|..]; intros; apply bool_decide_eq_false_2.
    - by intros [_ ?].
    - cbv zeta. change (nat_of_ascii ">") with 62.
      intros [(_ & _ & ?)|[(_ & _ & [[? _]|Hc])|[(_ & _ & ?)|[(_ & _ & ?)|(_ & _ & ?)]]]];
        try done; try lia.
      elems Hc; done. }
  unfold JS.trim. change ("<" +:+ x +:+ ">") with (String "<" (x +:+ ">")).
  rewrite Hlt.
  unfold String.rev. change (String.rev_app (String "<" (x +:+ ">")) "")
    with (String.rev_app (x +:+ ">") "<").
  rewrite rev_app_app.
  change (String.rev_app ">" (String.rev_app x "<"))
    with (String ">" (String.rev_app x "<")).
  rewrite Hgt.
  change (String.rev_app (String ">" (String.rev_app x "<")) "")
    with (String.rev_app (String.rev_app x "<") ">").
  by rewrite rev_app_rev_app.
Qed.

Example utf8_ex :
  utf8 0xA0 = no_break_space ∧ utf8 0xFEFF = byte_order_mark
  ∧ utf8 0x2028 = line_separator ∧ utf8 0x20 = " ".
Proof. by vm_compute. Qed.

Lemma concat_empty_app (x : string) (l : list string) :
  String.concat "" (x :: l) = x +:+ String.concat "" l.
Proof.
  destruct l as [|y l]; [|done].
  change (String.concat "" [x]) with x. simpl.
  induction x as [|a x IH]; [done|]. rewrite string_app_cons. by rewrite <- IH.
Qed.

(** [trimStart] removes a white-space code point in front. *)
Lemma trimStart_white_space (c : N) (rest : string) :
  c ∈ white_space_code_points →
  JS.trimStart (utf8 c +:+ rest) = JS.trimStart rest.
Proof.
  intros Hc. unfold white_space_code_points in Hc.
  elems Hc; subst c; reflexivity.
Qed.

(** The strings that [trimStart] empties are the strings of white-space
    code points. *)
Lemma white_space_only_blank (w : string) : white_space_only w → blank w = true.
Proof.
  intros (cps & Hcps & ->). apply bool_decide_eq_true.
  induction Hcps as [|c cps Hc Hcps IH]; [done|].
  rewrite fmap_cons, concat_empty_app. by rewrite trimStart_white_space.
Qed.

Lemma white_space_only_cons (c : N) (w r : string) :
  c ∈ white_space_code_points → w = utf8 c +:+ r → white_space_only r →
  white_space_only w.
Proof.
  intros Hc -> (cps & Hcps & ->). exists (c :: cps). split; [by constructor|].
  by rewrite fmap_cons, concat_empty_app.
Qed.

Lemma blank_white_space_only (w : string) : blank w = true → white_space_only w.
Proof.
  unfold blank, JS.trimStart. intros Hw%bool_decide_eq_true. revert Hw.
  induction w as [|a r Ha IH|a b r Ha Hb IH|a b c r Ha Hb Hc IH|x Hx Hstay]
    using (strip_ind JS.ws1 JS.ws2 JS.ws3).
  - intros _. by exists [].
  - simpl. rewrite Ha. intros Hr. specialize (IH Hr).
    unfold JS.ws1 in Ha. apply bool_decide_eq_true in Ha.
    elems Ha;
      match type of Ha with
      | _ = ?k =>
          apply ascii_of_byte in Ha; subst a;
          apply (white_space_only_cons (N.of_nat k) _ r);
          [unfold white_space_code_points; elem_of_list|reflexivity|exact IH]
      end.
  - simpl. rewrite Ha, Hb. intros Hr. specialize (IH Hr).
    apply ws2_bytes in Hb as [Ha2 Hb2].
    apply ascii_of_byte in Ha2, Hb2. subst a b.
    apply (white_space_only_cons 0xA0 _ r); [|reflexivity|exact IH].
    unfold white_space_code_points; elem_of_list.
  - simpl. rewrite Ha, Hb, Hc. intros Hr. specialize (IH Hr).
    assert (∃ cp, cp ∈ white_space_code_points
                  ∧ String a (String b (String c "")) = utf8 cp) as (cp & Hcp & Heq).
    { clear -Hc. unfold JS.ws3 in Hc. cbv zeta in Hc.
      apply bool_decide_eq_true in Hc.
      assert (∀ z : nat, (128 ≤ z)%nat ∧ (z ≤ 138)%nat →
                z ∈ [128; 129; 130; 131; 132; 133; 134; 135; 136; 137; 138])
        as Hrange.
      { intros z [Hlo Hhi].
        do 128 (destruct z as [|z]; [lia|]).
        do 11 (destruct z as [|z]; [elem_of_list|]). lia. }
      destruct Hc as [(Ha & Hb & Hc)|[(Ha & Hb & Hc)|[(Ha & Hb & Hc)|
        [(Ha & Hb & Hc)|(Ha & Hb & Hc)]]]];
        apply ascii_of_byte in Ha, Hb; subst a b.
      - apply ascii_of_byte in Hc. subst c. exists 0x1680%N.
        split; [unfold white_space_code_points; elem_of_list|reflexivity].
      - destruct Hc as [Hc%Hrange|Hc].
        + elems Hc; apply ascii_of_byte in Hc; subst c;
            [exists 0x2000%N|exists 0x2001%N|exists 0x2002%N|exists 0x2003%N
            |exists 0x2004%N|exists 0x2005%N|exists 0x2006%N|exists 0x2007%N
            |exists 0x2008%N|exists 0x2009%N|exists 0x200A%N];
            (split; [unfold white_space_code_points; elem_of_list|reflexivity]).
        + elems Hc; apply ascii_of_byte in Hc; subst c;
            [exists 0x2028%N|exists 0x2029%N|exists 0x202F%N];
            (split; [unfold white_space_code_points; elem_of_list|reflexivity]).
      - apply ascii_of_byte in Hc. subst c. exists 0x205F%N.
        split; [unfold white_space_code_points; elem_of_list|reflexivity].
      - apply ascii_of_byte in Hc. subst c. exists 0x3000%N.
        split; [unfold white_space_code_points; elem_of_list|reflexivity].
      - apply ascii_of_byte in Hc. subst c. exists 0xFEFF%N.
        split; [unfold white_space_code_points; elem_of_list|reflexivity]. }
    apply (white_space_only_cons cp _ r); [done| |exact IH].
    by rewrite <- Heq.
  - intros Hw. congruence.
Qed.

Lemma blank_spec (w : string) : blank w = true ↔ white_space_only w.
Proof. split; [apply blank_white_space_only|apply white_space_only_blank]. Qed.

(** X20: white space around the string, of any of the code points that
    [String.prototype.trim] removes, does not change what [isHTMLString]
    answers; a string in angle brackets, with or without white space
    around it, is markup, and an input that is not a string never is. *)
Theorem isHTMLString_ignores_white_space (w1 w2 x : string) :
  white_space_only w1 → white_space_only w2 →
  isHTMLString (JS.VStr (w1 +:+ x +:+ w2)) = isHTMLString (JS.VStr x)
  ∧ isHTMLString (JS.VStr (w1 +:+ ("<" +:+ x +:+ ">") +:+ w2)) = true
  ∧ ∀ v, (∀ y, v ≠ JS.VStr y) → isHTMLString v = false.
Proof.
  intros H1%white_space_only_blank H2%white_space_only_blank. split_and!.
  - unfold isHTMLString. by rewrite trim_blank_around.
  - unfold isHTMLString.
    rewrite (trim_blank_around w1 w2 ("<" +:+ x +:+ ">")), trim_angle by done.
    unfold JS.startsWith, JS.endsWith, String.rev.
    change ("<" +:+ x +:+ ">") with (String "<" (x +:+ ">")).
    change (String.rev_app (String "<" (x +:+ ">")) "")
      with (String.rev_app (x +:+ ">") "<").
    rewrite rev_app_app. simpl.
    destruct (ascii_dec "<" "<"), (ascii_dec ">" ">"); try done.
    simpl. by destruct (String.rev_app x "<"), (x +:+ ">").
  - intros v Hv. destruct v as [| | | |y]; try done. by destruct (Hv y).
Qed.

Lemma isHTMLString_ignores_white_space_witness :
  isHTMLString (JS.VStr ((no_break_space +:+ " ") +:+ "<b>"
                         +:+ (byte_order_mark +:+ line_separator)))
  = isHTMLString (JS.VStr "<b>")
  ∧ isHTMLString (JS.VStr ((no_break_space +:+ " ") +:+ ("<" +:+ "<b>" +:+ ">")
                           +:+ (byte_order_mark +:+ line_separator))) = true
  ∧ ∀ v, (∀ y, v ≠ JS.VStr y) → isHTMLString v = false.
Proof.
  apply (isHTMLString_ignores_white_space (no_break_space +:+ " ")
           (byte_order_mark +:+ line_separator) "<b>").
  - exists [0xA0; 0x20]%N. split; [|reflexivity].
    repeat constructor; unfold white_space_code_points; elem_of_list.
  - exists [0xFEFF; 0x2028]%N. split; [|reflexivity].
    repeat constructor; unfold white_space_code_points; elem_of_list.
Defined.

(** Markup between no-break spaces is markup, and so is markup after a
    byte order mark. *)
Example isHTMLString_nbsp_ex :
  isHTMLString (JS.VStr (no_break_space +:+ "<b>x</b>" +:+ no_break_space)) = true
  ∧ isHTMLString (JS.VStr (byte_order_mark +:+ "<p>")) = true
  ∧ isHTMLString (JS.VStr (no_break_space +:+ "div")) = false.
Proof. by vm_compute. Qed.

(** ** Replacing the content of an element *)








